(** * flwterm: the incremental max-flow steppers and the crew-pairing reduction

    A shallow embedding of [core/ford_fulkerson.py], [core/capacity_scaling.py]
    and [arcade/airline.py].  The Python classes keep a [networkx.DiGraph] and
    mutate it in place; here every method takes the object state and returns
    the new one, and a raised exception is a value of [res]. *)

From Stdlib Require Import ZArith List String Ascii Bool Lia DecimalString.
Import ListNotations.

#[local] Open Scope string_scope.
#[local] Open Scope list_scope.
#[local] Open Scope Z_scope.

(** ** Python values *)

Abbreviation node := string.

(** Numbers that the steppers handle: the integers of the edge list and
    [float('inf')], the initial value of [bottleneck]. *)
Inductive num : Type :=
| Fin (z : Z)
| Inf.

Definition num_min (a b : num) : num :=
  match a, b with
  | Inf, _ => b
  | _, Inf => a
  | Fin x, Fin y => Fin (Z.min x y)
  end.

Definition num_add (a b : num) : num :=
  match a, b with
  | Fin x, Fin y => Fin (x + y)
  | _, _ => Inf
  end.

(** [str(n)] of a Python int. *)
Definition str (z : Z) : string := NilZero.string_of_int (Z.to_int z).

(** Exceptions that reach the steppers. *)
Inductive exn : Type :=
| NetworkXNoPath
| NodeNotFound
| NetworkXError
| KeyError.

Inductive res (A : Type) : Type :=
| Ret (a : A)
| Raise (e : exn).
Arguments Ret {A} a.
Arguments Raise {A} e.

(** ** The part of networkx that the program calls

    A [DiGraph] whose nodes all come from [add_edge] is determined by its
    arcs: an insertion-ordered map from [(u, v)] to the attribute value.
    Arcs leaving one node keep their relative insertion order, which is the
    order of networkx's adjacency dict of that node. *)
Module NX.

Section DiGraph.
Context {A : Type}.

Definition DiGraph := list (node * node * A).

Definition arc_is (u v : node) (e : node * node * A) : bool :=
  (fst (fst e) =? u)%string && (snd (fst e) =? v)%string.

(** [G[u][v]], [None] where Python raises [KeyError]. *)
Fixpoint get (G : DiGraph) (u v : node) : option A :=
  match G with
  | [] => None
  | e :: G' => if arc_is u v e then Some (snd e) else get G' u v
  end.

Definition has_edge (G : DiGraph) (u v : node) : bool :=
  match get G u v with Some _ => true | None => false end.

(** [n in G] *)
Definition has_node (G : DiGraph) (n : node) : bool :=
  existsb (fun e => (fst (fst e) =? n)%string || (snd (fst e) =? n)%string) G.

(** [G[u][v] = f(G[u][v])] on an arc that exists; no change otherwise. *)
Fixpoint alter (f : A -> A) (G : DiGraph) (u v : node) : DiGraph :=
  match G with
  | [] => []
  | e :: G' =>
      if arc_is u v e then (fst e, f (snd e)) :: G'
      else e :: alter f G' u v
  end.

(** [G.add_edge(u, v, **a)]: a new arc goes last, an existing arc has its
    attributes overwritten in place. *)
Definition add_edge (G : DiGraph) (u v : node) (a : A) : DiGraph :=
  if has_edge G u v then alter (fun _ => a) G u v
  else G ++ [(u, v, a)].

(** [G.successors(n)], in adjacency order. *)
Definition successors (G : DiGraph) (n : node) : list node :=
  map (fun e => snd (fst e))
      (filter (fun e => (fst (fst e) =? n)%string) G).

(** [x not in seen] *)
Definition unseenb (seen : list node) (x : node) : bool :=
  negb (existsb (String.eqb x) seen).

(** Breadth-first search from the head of the queue.  A queue entry is the
    walk that reached its first node, newest node first; [seen] holds every
    node that was ever queued. *)
Fixpoint bfs (fuel : nat) (G : DiGraph) (target : node)
    (seen : list node) (queue : list (list node)) : option (list node) :=
  match fuel with
  | O => None
  | S fuel' =>
      match queue with
      | [] => None
      | [] :: rest => bfs fuel' G target seen rest
      | (n :: trail) :: rest =>
          if (n =? target)%string then Some (rev (n :: trail))
          else
            let fresh := filter (unseenb seen) (successors G n) in
            bfs fuel' G target (seen ++ fresh)
                (rest ++ map (fun w => w :: n :: trail) fresh)
      end
  end.

(** [nx.shortest_path(G, source, target)], unweighted: [NodeNotFound] when an
    endpoint is not a node of [G], [NetworkXNoPath] when the target cannot be
    reached, and otherwise the path that breadth-first search finds.  A node
    is queued at most once and is an endpoint of an arc, so the queue is
    empty within [2 * length G + 1] rounds ([bfs_fuel_enough]). *)
Definition shortest_path (G : DiGraph) (source target : node)
    : res (list node) :=
  if negb (has_node G source) || negb (has_node G target)
  then Raise NodeNotFound
  else
    match bfs (S (2 * List.length G))%nat G target [source] [[source]] with
    | Some path => Ret path
    | None => Raise NetworkXNoPath
    end.

End DiGraph.
Arguments DiGraph : clear implicits.

End NX.
Import NX.

(** The loops [for i in range(len(path) - 1): u, v = path[i], path[i+1]]
    visit these pairs. *)
Fixpoint hops (path : list node) : list (node * node) :=
  match path with
  | [] => []
  | u :: rest =>
      match rest with
      | [] => []
      | v :: _ => (u, v) :: hops rest
      end
  end.

(** One entry of [data['edges']]. *)
Module Edge.
Record t : Type := mk { u : node; v : node; capacity : Z }.
End Edge.

(** The attribute dict of an arc of [self.graph]. *)
Record attrs : Type := mkAttrs { capacity : Z; flow : Z }.

(** The body of the loop of [build_graph], the same in both classes. *)
Definition add_paired (G : DiGraph attrs) (edge : Edge.t) : DiGraph attrs :=
  let G1 := add_edge G (Edge.u edge) (Edge.v edge)
                     (mkAttrs (Edge.capacity edge) 0) in
  if negb (has_edge G1 (Edge.v edge) (Edge.u edge))
  then add_edge G1 (Edge.v edge) (Edge.u edge) (mkAttrs 0 0)
  else G1.

(** One iteration over [self.graph.edges(data=True)]: the arc enters [R] with
    [capacity=residual] when its residual passes [keep]. *)
Definition residual_visit (keep : Z -> bool) (R : DiGraph Z)
    (e : node * node * attrs) : DiGraph Z :=
  let residual := capacity (snd e) - flow (snd e) in
  if keep residual then add_edge R (fst (fst e)) (snd (fst e)) residual
  else R.

Definition residual_graph (keep : Z -> bool) (G : DiGraph attrs) : DiGraph Z :=
  fold_left (residual_visit keep) G [].

(** [bottleneck = min(bottleneck, R[u][v]['capacity'])] over the path. *)
Fixpoint bottleneck_loop (R : DiGraph Z) (hs : list (node * node))
    (bottleneck : num) : res num :=
  match hs with
  | [] => Ret bottleneck
  | (u, v) :: hs' =>
      match get R u v with
      | None => Raise KeyError
      | Some c => bottleneck_loop R hs' (num_min bottleneck (Fin c))
      end
  end.

(** Which branch of the augmentation one hop takes. *)
Definition pushes_forward (G : DiGraph attrs) (u v : node) (bottleneck : Z)
    : bool :=
  match get G u v with
  | Some d => capacity d >=? flow d + bottleneck
  | None => false
  end.

(** The augmentation loop.  An exception leaves the arcs already updated as
    they are. *)
Fixpoint augment (G : DiGraph attrs) (hs : list (node * node))
    (bottleneck : Z) : DiGraph attrs * option exn :=
  match hs with
  | [] => (G, None)
  | (u, v) :: hs' =>
      if pushes_forward G u v bottleneck
      then augment
             (alter (fun d => mkAttrs (capacity d) (flow d + bottleneck)) G u v)
             hs' bottleneck
      else
        match get G v u with
        | None => (G, Some KeyError)
        | Some _ =>
            augment
              (alter (fun d => mkAttrs (capacity d) (flow d - bottleneck))
                     G v u)
              hs' bottleneck
        end
  end.

(** ** core/ford_fulkerson.py *)
Module FordFulkerson.

(** [self.history] is only ever reset, so it is left out. *)
Record t : Type := mk { graph : DiGraph attrs; flow_val : num }.

Definition init : t := mk [] (Fin 0).

(** [graph.clear()] discards the previous state. *)
Definition build_graph (data : list Edge.t) : t :=
  mk (fold_left add_paired data []) (Fin 0).

Definition get_residual_graph (self : t) : DiGraph Z :=
  residual_graph (fun residual => residual >? 0) (graph self).

(** The result is the returned pair, or the exception that escapes, and
    the object after the call.  A path without arcs leaves [bottleneck] at
    [float('inf')] and runs no iteration of the augmentation loop. *)
Definition step (self : t) (source sink : node)
    : res (option (list node) * num) * t :=
  let R := get_residual_graph self in
  match shortest_path R source sink with
  | Ret path =>
      match bottleneck_loop R (hops path) Inf with
      | Raise e => (Raise e, self)
      | Ret Inf =>
          (Ret (Some path, Inf), mk (graph self) (num_add (flow_val self) Inf))
      | Ret (Fin bottleneck) =>
          match augment (graph self) (hops path) bottleneck with
          | (G', Some e) => (Raise e, mk G' (flow_val self))
          | (G', None) =>
              (Ret (Some path, Fin bottleneck),
               mk G' (num_add (flow_val self) (Fin bottleneck)))
          end
      end
  | Raise NetworkXNoPath => (Ret (None, Fin 0), self)
  | Raise e => (Raise e, self)
  end.

End FordFulkerson.

(** ** core/capacity_scaling.py *)
Module CapacityScaling.

Record t : Type := mk { graph : DiGraph attrs; delta : Z }.

Definition init : t := mk [] 0.

(** [while self.delta * 2 <= max_cap: self.delta *= 2] *)
Fixpoint double_up (fuel : nat) (delta max_cap : Z) : Z :=
  match fuel with
  | O => delta
  | S fuel' =>
      if delta * 2 <=? max_cap then double_up fuel' (delta * 2) max_cap
      else delta
  end.

Definition max_capacity (data : list Edge.t) : Z :=
  fold_left (fun max_cap edge => Z.max max_cap (Edge.capacity edge)) data 0.

(** The two accumulations of the loop do not depend on each other, so they
    are folded separately.  Starting from 1 the loop doubles fewer than
    [max_cap] times. *)
Definition build_graph (data : list Edge.t) : t :=
  let max_cap := max_capacity data in
  mk (fold_left add_paired data []) (double_up (Z.to_nat max_cap) 1 max_cap).

Definition delta_residual_graph (self : t) : DiGraph Z :=
  residual_graph (fun residual => residual >=? delta self) (graph self).

Definition step (self : t) (source sink : node)
    : res (option (list node) * num * string) * t :=
  if delta self <? 1 then (Ret (None, Fin 0, "Algorithm Complete"), self)
  else
    let R_delta := delta_residual_graph self in
    match shortest_path R_delta source sink with
    | Ret path =>
        match bottleneck_loop R_delta (hops path) Inf with
        | Raise e => (Raise e, self)
        | Ret Inf =>
            (Ret (Some path, Inf,
                  ("Augmented at Delta=" ++ str (delta self))%string),
             self)
        | Ret (Fin bottleneck) =>
            match augment (graph self) (hops path) bottleneck with
            | (G', Some e) => (Raise e, mk G' (delta self))
            | (G', None) =>
                (Ret (Some path, Fin bottleneck,
                      ("Augmented at Delta=" ++ str (delta self))%string),
                 mk G' (delta self))
            end
        end
    | Raise NetworkXNoPath =>
        let old_delta := delta self in
        let self' := mk (graph self) (delta self / 2) in
        (Ret (Some [], Fin 0,
              ("No path at Delta=" ++ str old_delta
               ++ ". Reducing Delta to " ++ str (delta self'))%string),
         self')
    | Raise e => (Raise e, self)
    end.

End CapacityScaling.

(** ** arcade/airline.py *)
Module Flight.
(** One entry of [flights]; [end] is a keyword here. *)
Record t : Type := mk { id : string; start : Z; end_ : Z }.

(** [f1 == f2] on the dicts. *)
Definition eqb (f1 f2 : t) : bool :=
  (id f1 =? id f2)%string && (start f1 =? start f2) && (end_ f1 =? end_ f2).
End Flight.

Section Airline.
(** The flow value that [nx.maximum_flow(G, source, sink)] returns. *)
Variable maximum_flow : DiGraph Z -> node -> node -> res Z.

Definition add_terminals (G : DiGraph Z) (f : Flight.t) : DiGraph Z :=
  add_edge (add_edge G "S" (Flight.id f ++ "_in")%string 1)
           (Flight.id f ++ "_out")%string "T" 1.

Definition add_compatible (f1 : Flight.t) (G : DiGraph Z) (f2 : Flight.t)
    : DiGraph Z :=
  if Flight.eqb f1 f2 then G
  else if Flight.end_ f1 <=? Flight.start f2
       then add_edge G (Flight.id f1 ++ "_in")%string
                       (Flight.id f2 ++ "_out")%string 1
       else G.

Definition airline_graph (flights : list Flight.t) : DiGraph Z :=
  fold_left
    (fun G f1 => fold_left (add_compatible f1) flights G)
    flights
    (fold_left add_terminals flights []).

Definition solve_airline (flights : list Flight.t) : res (Z * string) :=
  let n := Z.of_nat (List.length flights) in
  match maximum_flow (airline_graph flights) "S" "T" with
  | Raise e => Raise e
  | Ret flow_val =>
      let min_crews := n - flow_val in
      Ret (min_crews,
           ("Flights: " ++ str n ++ ", Compatible Pairs Matched: "
            ++ str flow_val)%string)
  end.
End Airline.

(** ** Vocabulary of the properties *)

Section Observers.
Context {A : Type}.

Definition keys (G : DiGraph A) : list (node * node) := map fst G.

(** A dict has every key once. *)
Definition wf (G : DiGraph A) : Prop := NoDup (keys G).
End Observers.

Definition sumZ (l : list Z) : Z := fold_right Z.add 0 l.

(** Flow leaving and entering a node, over the signed [flow] fields. *)
Definition outflow (G : DiGraph attrs) (n : node) : Z :=
  sumZ (map (fun e => flow (snd e))
            (filter (fun e => (fst (fst e) =? n)%string) G)).

Definition inflow (G : DiGraph attrs) (n : node) : Z :=
  sumZ (map (fun e => flow (snd e))
            (filter (fun e => (snd (fst e) =? n)%string) G)).

(** The hops at which [augment] takes its [else] branch. *)
Fixpoint reverse_hops (G : DiGraph attrs) (hs : list (node * node))
    (bottleneck : Z) : list (node * node) :=
  match hs with
  | [] => []
  | (u, v) :: hs' =>
      if pushes_forward G u v bottleneck
      then reverse_hops
             (alter (fun d => mkAttrs (capacity d) (flow d + bottleneck)) G u v)
             hs' bottleneck
      else
        (u, v) ::
        match get G v u with
        | None => []
        | Some _ =>
            reverse_hops
              (alter (fun d => mkAttrs (capacity d) (flow d - bottleneck))
                     G v u)
              hs' bottleneck
        end
  end.

(** The hops of one call of [step] that take the [else] branch. *)
Definition reverse_hops_of (G : DiGraph attrs) (R : DiGraph Z)
    (source sink : node) : list (node * node) :=
  match shortest_path R source sink with
  | Ret path =>
      match bottleneck_loop R (hops path) Inf with
      | Ret (Fin bottleneck) => reverse_hops G (hops path) bottleneck
      | _ => []
      end
  | Raise _ => []
  end.

(** The capacity that the last declaration of [u -> v] gives, if any. *)
Definition declared (data : list Edge.t) (u v : node) : option Z :=
  fold_left
    (fun last edge =>
       if (Edge.u edge =? u)%string && (Edge.v edge =? v)%string
       then Some (Edge.capacity edge) else last)
    data None.

(** A caller that presses "step" with the same endpoints [n] times, whatever
    each call returns or raises. *)
Module Run.
Fixpoint plain (n : nat) (self : FordFulkerson.t) (source sink : node)
    : FordFulkerson.t :=
  match n with
  | O => self
  | S n' => plain n' (snd (FordFulkerson.step self source sink)) source sink
  end.

Fixpoint scaling (n : nat) (self : CapacityScaling.t) (source sink : node)
    : CapacityScaling.t :=
  match n with
  | O => self
  | S n' =>
      scaling n' (snd (CapacityScaling.step self source sink)) source sink
  end.

(** Calls with endpoints that may change from call to call. *)
Definition plain_calls (self : FordFulkerson.t) (calls : list (node * node))
    : FordFulkerson.t :=
  fold_left (fun st c => snd (FordFulkerson.step st (fst c) (snd c)))
            calls self.

Definition scaling_calls (self : CapacityScaling.t)
    (calls : list (node * node)) : CapacityScaling.t :=
  fold_left (fun st c => snd (CapacityScaling.step st (fst c) (snd c)))
            calls self.

(** Step the plain stepper until it returns [(None, 0)]: the sum of the
    bottlenecks, or [None] when a call raises or [fuel] calls were not
    enough. *)
Fixpoint plain_total (fuel : nat) (self : FordFulkerson.t)
    (source sink : node) : option Z :=
  match fuel with
  | O => None
  | S fuel' =>
      match FordFulkerson.step self source sink with
      | (Ret (None, _), _) => Some 0
      | (Ret (Some _, Fin b), self') =>
          option_map (Z.add b) (plain_total fuel' self' source sink)
      | _ => None
      end
  end.

(** Step the scaling stepper until it returns "Algorithm Complete". *)
Fixpoint scaling_total (fuel : nat) (self : CapacityScaling.t)
    (source sink : node) : option Z :=
  match fuel with
  | O => None
  | S fuel' =>
      match CapacityScaling.step self source sink with
      | (Ret (None, _, _), _) => Some 0
      | (Ret (Some _, Fin b, _), self') =>
          option_map (Z.add b) (scaling_total fuel' self' source sink)
      | _ => None
      end
  end.
End Run.

Section PathVocabulary.
Context {A : Type}.

(** Consecutive nodes are joined by arcs of [G]. *)
Definition walk (G : DiGraph A) (p : list node) : Prop :=
  Forall (fun h => has_edge G (fst h) (snd h) = true) (hops p).

(** What [shortest_path] hands to the steppers. *)
Definition simple_path (G : DiGraph A) (source target : node)
    (p : list node) : Prop :=
  hd_error p = Some source /\ (exists front, p = front ++ [target]) /\
  NoDup p /\ walk G p.

(** What breadth-first search keeps true of a queue entry [q]. *)
Definition queue_entry_ok (G : DiGraph A) (source : node)
    (seen q : list node) : Prop :=
  walk G (rev q) /\ NoDup q /\ incl q seen /\
  hd_error (rev q) = Some source.

(** The endpoints of the arcs, with repetitions. *)
Definition node_list (G : DiGraph A) : list node :=
  map (fun e => fst (fst e)) G ++ map (fun e => snd (fst e)) G.

(** The nodes that breadth-first search has not queued yet. *)
Definition unseen (G : DiGraph A) (seen : list node) : list node :=
  filter (unseenb seen) (nodup string_dec (node_list G)).

(** Some walk leads from [s] to [t]. *)
Definition reachable (G : DiGraph A) (s t : node) : Prop :=
  exists p, hd_error p = Some s /\ (exists front, p = front ++ [t]) /\
            walk G p.

(** [x] has left the queue: it is not the target and its successors are
    seen. *)
Definition settled (G : DiGraph A) (target : node) (seen : list node)
    (x : node) : Prop :=
  x <> target /\ forall w, has_edge G x w = true -> In w seen.

(** Every seen node is still queued or settled. *)
Definition frontier_ok (G : DiGraph A) (target : node) (seen : list node)
    (queue : list (list node)) : Prop :=
  forall x, In x seen ->
    (exists q, In q queue /\ hd_error q = Some x) \/ settled G target seen x.
End PathVocabulary.

(** What one forward push does to the attributes of an arc. *)
Definition push (bottleneck : Z) (d : attrs) : attrs :=
  mkAttrs (capacity d) (flow d + bottleneck).

Definition on_hops (hs : list (node * node)) (x y : node) : bool :=
  existsb (fun h => (x =? fst h)%string && (y =? snd h)%string) hs.

(** The entry of the residual graph that an arc with attributes [d] gives. *)
Definition residual_pick (keep : Z -> bool) (d : attrs) : option Z :=
  if keep (capacity d - flow d) then Some (capacity d - flow d) else None.

(** Every key once, and every flow between 0 and the capacity, or 0 on an
    arc of negative capacity. *)
Definition bounded (G : DiGraph attrs) : Prop :=
  wf G /\
  forall u v d, get G u v = Some d -> 0 <= flow d <= Z.max 0 (capacity d).

(** The hops of one call of [step] that take the [else] branch. *)
Definition plain_reverse_hops (self : FordFulkerson.t) (source sink : node)
    : list (node * node) :=
  reverse_hops_of (FordFulkerson.graph self)
                  (FordFulkerson.get_residual_graph self) source sink.

Definition scaling_reverse_hops (self : CapacityScaling.t)
    (source sink : node) : list (node * node) :=
  if CapacityScaling.delta self <? 1 then []
  else reverse_hops_of (CapacityScaling.graph self)
                       (CapacityScaling.delta_residual_graph self) source sink.

(** Flow is conserved with value [f] between [source] and [sink]. *)
Definition conserved (G : DiGraph attrs) (source sink : node) (f : Z) : Prop :=
  (forall n, n <> source -> n <> sink -> inflow G n = outflow G n) /\
  outflow G source - inflow G source = f /\
  inflow G sink - outflow G sink = f.

Definition cnt (l : list node) (n : node) : Z :=
  Z.of_nat (count_occ string_dec l n).

(** The invariant of the plain stepper between calls. *)
Definition plain_conserved (self : FordFulkerson.t) (s t : node) : Prop :=
  wf (FordFulkerson.graph self) /\
  exists f, FordFulkerson.flow_val self = Fin f /\
            conserved (FordFulkerson.graph self) s t f.


(** The demonstration network of [tui.py] ([DEFAULT_RAIL_DATA]). *)
Definition rail_data : list Edge.t :=
  [ Edge.mk "S" "A" 10; Edge.mk "S" "B" 10; Edge.mk "A" "C" 8;
    Edge.mk "B" "C" 6; Edge.mk "A" "D" 4; Edge.mk "B" "E" 8;
    Edge.mk "C" "E" 6; Edge.mk "D" "T" 10; Edge.mk "E" "T" 10;
    Edge.mk "C" "D" 5 ].

(** A graph on which the two steppers stop at different totals. *)
Definition detour_data : list Edge.t :=
  [ Edge.mk "S" "A" 2; Edge.mk "A" "B" 1; Edge.mk "B" "T" 2;
    Edge.mk "S" "x" 4; Edge.mk "x" "y" 4; Edge.mk "y" "z" 4;
    Edge.mk "z" "B" 4; Edge.mk "A" "u" 4; Edge.mk "u" "v" 4;
    Edge.mk "v" "T" 4 ].

(** [d] is the largest power of two that is at most [m]. *)
Definition largest_power_of_two_le (d m : Z) : Prop :=
  (exists k, 0 <= k /\ d = 2 ^ k) /\ d <= m /\ m < 2 * d.

(** [m] is the largest capacity that the edge list declares. *)
Definition max_declared (data : list Edge.t) (m : Z) : Prop :=
  (exists e, In e data /\ Edge.capacity e = m) /\
  forall e, In e data -> Edge.capacity e <= m.

(** ** Maximum flow, as [nx.maximum_flow] promises it *)

Definition flow_fn := node -> node -> Z.

Definition leaving (G : DiGraph Z) (f : flow_fn) (n : node) : Z :=
  sumZ (map (fun e => f (fst (fst e)) (snd (fst e)))
            (filter (fun e => (fst (fst e) =? n)%string) G)).

Definition entering (G : DiGraph Z) (f : flow_fn) (n : node) : Z :=
  sumZ (map (fun e => f (fst (fst e)) (snd (fst e)))
            (filter (fun e => (snd (fst e) =? n)%string) G)).

Definition feasible (G : DiGraph Z) (s t : node) (f : flow_fn) : Prop :=
  (forall u v c, In (u, v, c) G -> 0 <= f u v <= c) /\
  (forall n, n <> s -> n <> t -> entering G f n = leaving G f n).

Definition flow_value (G : DiGraph Z) (s : node) (f : flow_fn) : Z :=
  leaving G f s - entering G f s.

Definition max_flow_value (G : DiGraph Z) (s t : node) (v : Z) : Prop :=
  (exists f, feasible G s t f /\ flow_value G s f = v) /\
  (forall f, feasible G s t f -> flow_value G s f <= v).

(** A routine to run [solve_airline] with: augmenting paths over residual
    capacities that do gain the pushed amount on the reverse arc. *)
Module Reference.
Definition residual_network (G : DiGraph Z) : DiGraph Z :=
  fold_left
    (fun R e =>
       let R1 := add_edge R (fst (fst e)) (snd (fst e)) (snd e) in
       if has_edge R1 (snd (fst e)) (fst (fst e)) then R1
       else add_edge R1 (snd (fst e)) (fst (fst e)) 0)
    G [].

Fixpoint push_along (R : DiGraph Z) (hs : list (node * node)) (b : Z)
    : DiGraph Z :=
  match hs with
  | [] => R
  | (u, v) :: hs' =>
      push_along (alter (fun c => c + b) (alter (fun c => c - b) R u v) v u)
                 hs' b
  end.

Fixpoint saturate (fuel : nat) (R : DiGraph Z) (s t : node) (total : Z) : Z :=
  match fuel with
  | O => total
  | S fuel' =>
      let open := filter (fun e => snd e >? 0) R in
      match shortest_path open s t with
      | Ret path =>
          match bottleneck_loop open (hops path) Inf with
          | Ret (Fin b) =>
              saturate fuel' (push_along R (hops path) b) s t (total + b)
          | _ => total
          end
      | Raise _ => total
      end
  end.

Definition maximum_flow (G : DiGraph Z) (s t : node) : res Z :=
  if negb (has_node G s) || negb (has_node G t) || (s =? t)%string
  then Raise NetworkXError
  else
    let supply :=
      sumZ (map snd (filter (fun e => (fst (fst e) =? s)%string) G)) in
    Ret (saturate (S (Z.to_nat supply)) (residual_network G) s t 0).
End Reference.

(** The flights of the "Run Airline Sched" button of [tui.py]. *)
Definition demo_flights : list Flight.t :=
  [Flight.mk "A1" 0 4; Flight.mk "A2" 5 9; Flight.mk "B1" 2 6].

(** One flight of no duration. *)
Definition instant_flight : Flight.t := Flight.mk "X" 5 5.



(** The two kinds of arcs of the crew-pairing graph. *)
Definition is_terminal_arc (flights : list Flight.t) (x y : node) : Prop :=
  exists f, In f flights /\
            ((x, y) = ("S", (Flight.id f ++ "_in")%string) \/
             (x, y) = ((Flight.id f ++ "_out")%string, "T")).

Definition is_pairing_arc (firsts seconds : list Flight.t) (x y : node) : Prop :=
  exists f1 f2, In f1 firsts /\ In f2 seconds /\ f1 <> f2 /\
                Flight.end_ f1 <= Flight.start f2 /\
                (x, y) = ((Flight.id f1 ++ "_in")%string,
                          (Flight.id f2 ++ "_out")%string).


(** One unit along [S -> A1_in -> A2_out -> T]. *)
Definition demo_flow : flow_fn :=
  fun u v =>
    if ((u =? "S")%string && (v =? "A1_in")%string)
       || ((u =? "A1_in")%string && (v =? "A2_out")%string)
       || ((u =? "A2_out")%string && (v =? "T")%string)
    then 1 else 0.

(** ** Vocabulary of the further properties *)

(** The arcs with their capacities, in order. *)
Definition capacities (G : DiGraph attrs) : list (node * node * Z) :=
  map (fun e => (fst e, capacity (snd e))) G.

(** [d] is 1, 2, 4, ... *)
Definition power_of_two (d : Z) : Prop := exists k, 0 <= k /\ d = 2 ^ k.



(** The bottlenecks that [n] calls of the scaling stepper's [step] return,
    added up. *)
Fixpoint scaling_pushed (n : nat) (self : CapacityScaling.t)
    (source sink : node) : Z :=
  match n with
  | O => 0
  | S n' =>
      (match fst (CapacityScaling.step self source sink) with
       | Ret (_, Fin b, _) => b
       | _ => 0
       end)
      + scaling_pushed n' (snd (CapacityScaling.step self source sink))
                       source sink
  end.

(** The arcs that leave [s]. *)
Definition arcs_from {A : Type} (G : DiGraph A) (s : node)
    : list (node * node * A) :=
  filter (fun e => (fst (fst e) =? s)%string) G.


(** ** arcade/baseball.py *)

(** [d.get(k)] on a dict in insertion order, [None] for a missing key. *)
Fixpoint lookup {V : Type} (d : list (string * V)) (k : string) : option V :=
  match d with
  | [] => None
  | (k', x) :: d' => if (k' =? k)%string then Some x else lookup d' k
  end.

Module Team.
(** One value of [teams_data]. *)
Record t : Type := mk { wins : Z; remaining : list (string * Z) }.
End Team.

(** [[t for t in teams_data if t != target_team]] *)
Definition other_teams_of (teams_data : list (string * Team.t))
    (target_team : string) : list string :=
  filter (fun t => negb (t =? target_team)%string) (map fst teams_data).

(** The loop over [other_teams] that adds the arcs into the sink; [inl team]
    is the early return for [team]. *)
Fixpoint team_arcs (teams_data : list (string * Team.t)) (max_wins : Z)
    (other_teams : list string) (G : DiGraph num)
    : res (string + DiGraph num) :=
  match other_teams with
  | [] => Ret (inr G)
  | team :: rest =>
      match lookup teams_data team with
      | None => Raise KeyError
      | Some stats =>
          let cap := max_wins - Team.wins stats in
          if cap <? 0 then Ret (inl team)
          else team_arcs teams_data max_wins rest
                         (add_edge G team "T" (Fin cap))
      end
  end.

(** [teams_data[t1]['remaining'].get(t2, 0)] *)
Definition games_left (teams_data : list (string * Team.t)) (t1 t2 : string)
    : res Z :=
  match lookup teams_data t1 with
  | None => Raise KeyError
  | Some stats =>
      Ret (match lookup (Team.remaining stats) t2 with
           | Some g => g
           | None => 0
           end)
  end.

(** The body of the inner loop, on the graph and [total_games_capacity]. *)
Definition add_game (teams_data : list (string * Team.t)) (t1 : string)
    (acc : res (DiGraph num * Z)) (t2 : string) : res (DiGraph num * Z) :=
  match acc with
  | Raise e => Raise e
  | Ret (G, total_games_capacity) =>
      match games_left teams_data t1 t2 with
      | Raise e => Raise e
      | Ret g =>
          if g >? 0 then
            let game_node := ("G_" ++ t1 ++ "_" ++ t2)%string in
            Ret (add_edge
                   (add_edge (add_edge G "S" game_node (Fin g))
                             game_node t1 Inf)
                   game_node t2 Inf,
                 total_games_capacity + g)
          else Ret (G, total_games_capacity)
      end
  end.

(** [for i in range(len(other_teams)): for j in range(i+1, len(other_teams))] *)
Fixpoint game_arcs (teams_data : list (string * Team.t))
    (other_teams : list string) (acc : res (DiGraph num * Z))
    : res (DiGraph num * Z) :=
  match other_teams with
  | [] => acc
  | t1 :: rest =>
      game_arcs teams_data rest (fold_left (add_game teams_data t1) rest acc)
  end.

(** [target_stats['wins'] + sum(target_stats['remaining'].values())] *)
Definition max_wins_of (target_stats : Team.t) : Z :=
  Team.wins target_stats + sumZ (map snd (Team.remaining target_stats)).

Section Baseball.
(** The flow value that [nx.maximum_flow(G, source, sink)] returns; an arc
    with capacity [float('inf')] is unbounded. *)
Variable maximum_flow : DiGraph num -> node -> node -> res Z.

Definition solve_baseball (teams_data : list (string * Team.t))
    (target_team : string) : res (bool * string) :=
  match lookup teams_data target_team with
  | None => Ret (false, "Team not found")
  | Some target_stats =>
      let max_wins := max_wins_of target_stats in
      let other_teams := other_teams_of teams_data target_team in
      match team_arcs teams_data max_wins other_teams [] with
      | Raise e => Raise e
      | Ret (inl team) =>
          Ret (true,
               ("Trivial Elimination: " ++ team
                ++ " already has more wins.")%string)
      | Ret (inr G1) =>
          match game_arcs teams_data other_teams (Ret (G1, 0)) with
          | Raise e => Raise e
          | Ret (G, total_games_capacity) =>
              match maximum_flow G "S" "T" with
              | Raise e => Raise e
              | Ret flow_val =>
                  Ret (flow_val <? total_games_capacity,
                       ("Flow: " ++ str flow_val ++ "/"
                        ++ str total_games_capacity
                        ++ ". Max Wins Possible: " ++ str max_wins)%string)
              end
          end
      end
  end.
End Baseball.

(** [DEFAULT_MLB_DATA['teams']] of [tui.py]. *)
Definition mlb_data : list (string * Team.t) :=
  [ ("NYY", Team.mk 75 [("BAL", 3); ("BOS", 8); ("TOR", 7); ("DET", 3)]);
    ("BAL", Team.mk 71 [("NYY", 3); ("BOS", 2); ("TOR", 7); ("DET", 4)]);
    ("BOS", Team.mk 69 [("NYY", 8); ("BAL", 2); ("TOR", 0); ("DET", 0)]);
    ("TOR", Team.mk 63 [("NYY", 7); ("BAL", 7); ("BOS", 0); ("DET", 0)]);
    ("DET", Team.mk 49 [("NYY", 3); ("BAL", 4); ("BOS", 0); ("TOR", 0)]) ].

(** A routine to run [solve_baseball] with: the reference routine, with
    every unbounded capacity replaced by more than all bounded ones carry. *)
Definition reference_maximum_flow (G : DiGraph num) (s t : node) : res Z :=
  let bounded_total :=
    sumZ (map (fun e => match snd e with Fin c => Z.max 0 c | Inf => 0 end) G) in
  Reference.maximum_flow
    (map (fun e => (fst e, match snd e with
                           | Fin c => c
                           | Inf => bounded_total + 1
                           end)) G)
    s t.

(** Every pair of [l] with the first member earlier in [l], in the order of
    the two nested loops. *)
Fixpoint pairings (l : list string) : list (string * string) :=
  match l with
  | [] => []
  | t1 :: rest => map (pair t1) rest ++ pairings rest
  end.

(** The games of a pair that count: those in the schedule of its first
    member, when positive. *)
Definition scheduled (teams_data : list (string * Team.t))
    (p : string * string) : Z :=
  match games_left teams_data (fst p) (snd p) with
  | Ret g => Z.max 0 g
  | Raise _ => 0
  end.

(** [team] has already won more than [max_wins] games. *)
Definition ahead (teams_data : list (string * Team.t)) (max_wins : Z)
    (team : string) : Prop :=
  exists stats,
    lookup teams_data team = Some stats /\ max_wins < Team.wins stats.

(** networkx refuses a source that is not a node of the graph. *)
Definition source_checked {A : Type}
    (maximum_flow : DiGraph A -> node -> node -> res Z) : Prop :=
  forall G s t, has_node G s = false -> maximum_flow G s t = Raise NetworkXError.

(** How the graph changes over a run of the game loops that adds [d] games:
    untouched when there is none, with the source as a node otherwise. *)
Definition games_added (G G' : DiGraph num) (d : Z) : Prop :=
  (d = 0 /\ G' = G) \/ (0 < d /\ has_node G' "S" = true).

(** A league of two. *)
Definition two_team_league : list (string * Team.t) :=
  [ ("A", Team.mk 3 [("B", 2)]); ("B", Team.mk 1 [("A", 2)]) ].

(** * Proofs *)

(** ** Arcs of an insertion-ordered map *)

Lemma eqb_pair_true (u v x y : node) :
  ((x =? u)%string && (y =? v)%string) = true <-> (x, y) = (u, v).
Proof.
  rewrite andb_true_iff, !String.eqb_eq.
  split; [intros [-> ->]; reflexivity|intros H; inversion H; auto].
Qed.

Section DiGraphFacts.
Context {A : Type}.
Implicit Types (G : DiGraph A) (u v x y : node) (a : A).

Lemma arc_is_true u v (e : node * node * A) :
  arc_is u v e = true <-> fst e = (u, v).
Proof.
  destruct e as [[x y] a]. unfold arc_is. simpl. apply eqb_pair_true.
Qed.

Lemma arc_is_false u v (e : node * node * A) :
  arc_is u v e = false <-> fst e <> (u, v).
Proof.
  rewrite <- arc_is_true. destruct (arc_is u v e); split; congruence.
Qed.

Lemma get_In G u v a : get G u v = Some a -> In (u, v, a) G.
Proof.
  induction G as [|e G IH]; simpl; [discriminate|].
  destruct (arc_is u v e) eqn:E.
  - apply arc_is_true in E. intros [= <-]. left.
    destruct e as [k a']. simpl in *. congruence.
  - auto.
Qed.

Lemma get_None G u v : get G u v = None <-> ~ In (u, v) (keys G).
Proof.
  induction G as [|e G IH]; simpl; [tauto|].
  destruct (arc_is u v e) eqn:E.
  - apply arc_is_true in E. split; [discriminate|intros H; exfalso; auto].
  - apply arc_is_false in E. rewrite IH. intuition congruence.
Qed.

Lemma get_Some_keys G u v a : get G u v = Some a -> In (u, v) (keys G).
Proof.
  intros H. apply get_In in H. apply (in_map fst) in H. exact H.
Qed.

Lemma In_get G u v a : wf G -> In (u, v, a) G -> get G u v = Some a.
Proof.
  unfold wf. induction G as [|e G IH]; simpl; [tauto|].
  intros Hnd Hin. inversion Hnd as [|k ks Hk Hnd']; subst.
  destruct (arc_is u v e) eqn:E.
  - apply arc_is_true in E. destruct Hin as [->|Hin]; [reflexivity|].
    exfalso. apply Hk. rewrite E. apply (in_map fst) in Hin. exact Hin.
  - apply arc_is_false in E. destruct Hin as [->|Hin]; [simpl in E; congruence|].
    auto.
Qed.

Lemma has_edge_keys G u v : has_edge G u v = true <-> In (u, v) (keys G).
Proof.
  unfold has_edge. destruct (get G u v) eqn:E.
  - split; [intros _; eapply get_Some_keys; eauto|reflexivity].
  - apply get_None in E. split; [discriminate|tauto].
Qed.

Lemma keys_alter f G u v : keys (alter f G u v) = keys G.
Proof.
  induction G as [|e G IH]; simpl; [reflexivity|].
  destruct (arc_is u v e); simpl; [reflexivity|]. f_equal. exact IH.
Qed.

Lemma get_alter_same f G u v :
  get (alter f G u v) u v = option_map f (get G u v).
Proof.
  induction G as [|e G IH]; simpl; [reflexivity|].
  destruct (arc_is u v e) eqn:E; simpl.
  - unfold arc_is in *. simpl. rewrite E. reflexivity.
  - rewrite E. exact IH.
Qed.

Lemma get_alter_other f G u v x y :
  (x, y) <> (u, v) -> get (alter f G u v) x y = get G x y.
Proof.
  intros Hne. induction G as [|e G IH]; simpl; [reflexivity|].
  destruct (arc_is u v e) eqn:E; simpl.
  - apply arc_is_true in E.
    assert (arc_is x y e = false) as Hf by (apply arc_is_false; congruence).
    unfold arc_is in *. simpl. rewrite Hf. reflexivity.
  - rewrite IH. reflexivity.
Qed.

Lemma get_app G G' u v :
  get (G ++ G') u v =
  match get G u v with Some a => Some a | None => get G' u v end.
Proof.
  induction G as [|e G IH]; simpl; [reflexivity|].
  destruct (arc_is u v e); auto.
Qed.

Lemma get_add_edge_same G u v a : get (add_edge G u v a) u v = Some a.
Proof.
  unfold add_edge, has_edge. destruct (get G u v) eqn:E.
  - rewrite get_alter_same, E. reflexivity.
  - rewrite get_app, E. simpl.
    assert (arc_is u v (u, v, a) = true) as -> by (apply arc_is_true; reflexivity).
    reflexivity.
Qed.

Lemma get_add_edge_other G u v a x y :
  (x, y) <> (u, v) -> get (add_edge G u v a) x y = get G x y.
Proof.
  intros Hne. unfold add_edge. destruct (has_edge G u v).
  - apply get_alter_other; assumption.
  - rewrite get_app. destruct (get G x y); [reflexivity|]. simpl.
    assert (arc_is x y (u, v, a) = false) as ->
      by (apply arc_is_false; simpl; congruence).
    reflexivity.
Qed.

Lemma keys_add_edge G u v a :
  keys (add_edge G u v a) =
  if has_edge G u v then keys G else keys G ++ [(u, v)].
Proof.
  unfold add_edge. destruct (has_edge G u v).
  - apply keys_alter.
  - unfold keys. rewrite map_app. reflexivity.
Qed.

Lemma wf_add_edge G u v a : wf G -> wf (add_edge G u v a).
Proof.
  unfold wf. intros H. rewrite keys_add_edge.
  destruct (has_edge G u v) eqn:E; [assumption|].
  apply NoDup_app; [assumption|repeat constructor; simpl; tauto|].
  intros k Hk [<-|[]]. apply has_edge_keys in Hk. congruence.
Qed.

Lemma wf_alter f G u v : wf G -> wf (alter f G u v).
Proof. unfold wf. rewrite keys_alter. trivial. Qed.

Lemma has_edge_add_edge G u v a x y :
  has_edge (add_edge G u v a) x y =
  ((x =? u)%string && (y =? v)%string) || has_edge G x y.
Proof.
  unfold has_edge at 1.
  destruct ((x =? u)%string && (y =? v)%string) eqn:E.
  - apply eqb_pair_true in E. inversion E; subst.
    rewrite get_add_edge_same. reflexivity.
  - rewrite get_add_edge_other.
    + reflexivity.
    + intros H. apply eqb_pair_true in H. congruence.
Qed.

Lemma successors_has_edge G n w :
  In w (successors G n) <-> has_edge G n w = true.
Proof.
  rewrite has_edge_keys. unfold successors, keys.
  rewrite !in_map_iff. split.
  - intros [e [<- He]]. apply filter_In in He. destruct He as [He Hn].
    apply String.eqb_eq in Hn. exists e. split; [|assumption].
    destruct e as [[x y] a]. simpl in *. subst. reflexivity.
  - intros [e [Hk He]]. exists e. destruct e as [[x y] a]. simpl in Hk.
    inversion Hk; subst. split; [reflexivity|].
    apply filter_In. split; [assumption|]. simpl. apply String.eqb_refl.
Qed.

Lemma has_node_spec G n :
  has_node G n = true <->
  exists m, In (n, m) (keys G) \/ In (m, n) (keys G).
Proof.
  unfold has_node, keys. rewrite existsb_exists. split.
  - intros [[[x y] a] [Hin H]]. simpl in H. apply orb_true_iff in H.
    destruct H as [H|H]; apply String.eqb_eq in H; subst.
    + exists y. left. apply (in_map fst) in Hin. exact Hin.
    + exists x. right. apply (in_map fst) in Hin. exact Hin.
  - intros [m [H|H]]; apply in_map_iff in H; destruct H as [e [Hk He]];
      exists e; (split; [assumption|]); destruct e as [[x y] a];
      simpl in Hk; inversion Hk; subst; simpl;
      rewrite String.eqb_refl; auto using orb_true_r.
Qed.
End DiGraphFacts.

(** ** Breadth-first search returns a simple path *)

Lemma hops_snoc (l : list node) (n w : node) :
  hops (l ++ [n; w]) = hops (l ++ [n]) ++ [(n, w)].
Proof.
  induction l as [|x l IH]; simpl; [reflexivity|].
  destruct l as [|y l]; simpl in *; [reflexivity|].
  rewrite IH. reflexivity.
Qed.

Lemma hops_fst (p : list node) : map fst (hops p) = removelast p.
Proof.
  induction p as [|x p IH]; simpl; [reflexivity|].
  destruct p as [|y p]; [reflexivity|]. simpl in *. rewrite IH. reflexivity.
Qed.

Lemma hops_snd (p : list node) : map snd (hops p) = tl p.
Proof.
  induction p as [|x p IH]; simpl; [reflexivity|].
  destruct p as [|y p]; [reflexivity|]. simpl in *. rewrite IH. reflexivity.
Qed.

Lemma removelast_incl {B : Type} (l : list B) x : In x (removelast l) -> In x l.
Proof.
  induction l as [|y l IH]; simpl; [tauto|].
  destruct l; simpl in *; [tauto|]. intuition.
Qed.

Lemma NoDup_removelast {B : Type} (l : list B) : NoDup l -> NoDup (removelast l).
Proof.
  induction l as [|y l IH]; simpl; [trivial|]. intros H.
  inversion H; subst. destruct l as [|z l]; [constructor|].
  constructor; [|auto]. intros Hin. apply removelast_incl in Hin. auto.
Qed.

Lemma NoDup_hops (p : list node) : NoDup p -> NoDup (hops p).
Proof.
  intros H. apply NoDup_removelast in H. rewrite <- hops_fst in H.
  eapply NoDup_map_inv; eauto.
Qed.

Section BfsFacts.
Context {A : Type}.
Variables (G : DiGraph A) (source target : node).

Let good := queue_entry_ok G source.

Lemma hd_error_snoc {B : Type} (l : list B) (x y : B) :
  hd_error l = Some x -> hd_error (l ++ [y]) = Some x.
Proof. destruct l; simpl; [discriminate|trivial]. Qed.

Lemma good_extend seen n trail w :
  good seen (n :: trail) -> has_edge G n w = true -> ~ In w seen ->
  forall seen', incl (w :: seen) seen' -> good seen' (w :: n :: trail).
Proof.
  intros (Hw & Hnd & Hin & Hhd) He Hnew seen' Hs. unfold good. repeat split.
  - unfold walk in *. simpl in *. rewrite <- app_assoc. simpl.
    rewrite hops_snoc. apply Forall_app. split; [assumption|].
    constructor; [exact He|constructor].
  - constructor; [|assumption]. intros Hin'. apply Hnew. apply Hin. exact Hin'.
  - intros x [<-|Hx]; apply Hs; [left; reflexivity|right; apply Hin; exact Hx].
  - simpl in *. apply hd_error_snoc. exact Hhd.
Qed.

Lemma good_mono seen seen' q : good seen q -> incl seen seen' -> good seen' q.
Proof.
  intros (Hw & Hnd & Hin & Hhd) Hs. unfold good. repeat split; trivial.
  intros x Hx. auto.
Qed.

Lemma not_seen seen w :
  negb (existsb (String.eqb w) seen) = true -> ~ In w seen.
Proof.
  intros H Hin. apply negb_true_iff in H.
  assert (existsb (String.eqb w) seen = true) as Ht.
  { apply existsb_exists. exists w. split; [assumption|apply String.eqb_refl]. }
  congruence.
Qed.

Lemma bfs_sound fuel : forall seen queue p,
  Forall (good seen) queue ->
  bfs fuel G target seen queue = Some p -> simple_path G source target p.
Proof.
  induction fuel as [|fuel IH]; intros seen queue p Hq; simpl; [discriminate|].
  destruct queue as [|[|n trail] rest]; [discriminate| |].
  - inversion Hq; subst. apply IH; assumption.
  - inversion Hq as [|q qs Hg Hrest]; subst.
    destruct (n =? target)%string eqn:E.
    + apply String.eqb_eq in E. subst n. intros [= <-].
      destruct Hg as (Hw & Hnd & Hin & Hhd). unfold simple_path.
      repeat split; trivial.
      * exists (rev trail). reflexivity.
      * change (NoDup (rev (target :: trail))). apply NoDup_rev. exact Hnd.
    + apply IH. apply Forall_app. split.
      * eapply Forall_impl; [|exact Hrest]. intros q Hgq.
        eapply good_mono; [exact Hgq|]. apply incl_appl, incl_refl.
      * apply Forall_map. apply Forall_forall. intros w Hw.
        apply filter_In in Hw. destruct Hw as [Hsucc Hnew].
        eapply good_extend; [exact Hg| | |].
        -- apply successors_has_edge. exact Hsucc.
        -- apply not_seen. exact Hnew.
        -- intros x [<-|Hx]; apply in_or_app;
             [right; apply filter_In; split; assumption|left; exact Hx].
Qed.

Lemma shortest_path_sound p :
  shortest_path G source target = Ret p -> simple_path G source target p.
Proof.
  unfold shortest_path.
  destruct (negb (has_node G source) || negb (has_node G target));
    [discriminate|].
  destruct (bfs _ G target [source] [[source]]) as [q|] eqn:E; [|discriminate].
  intros [= <-]. eapply bfs_sound; [|exact E].
  constructor; [|constructor]. unfold good, walk. simpl.
  split; [constructor|]. split; [|split; [apply incl_refl|reflexivity]].
  constructor; [simpl; tauto|constructor].
Qed.
End BfsFacts.

Lemma shortest_path_raises {A : Type} (G : DiGraph A) s t e :
  shortest_path G s t = Raise e -> e = NodeNotFound \/ e = NetworkXNoPath.
Proof.
  unfold shortest_path. destruct (negb _ || negb _); [intros [= <-]; auto|].
  destruct (bfs _ _ _ _ _); [discriminate|intros [= <-]; auto].
Qed.


(** ** Breadth-first search has fuel enough and misses no path *)

Section Fuel.
Context {A : Type}.
Variables (G : DiGraph A) (target : node).
Hypothesis G_wf : wf G.

Lemma unseenb_true seen x : unseenb seen x = true <-> ~ In x seen.
Proof.
  unfold unseenb. rewrite negb_true_iff. split.
  - intros H Hin.
    assert (existsb (String.eqb x) seen = true) as Ht
      by (apply existsb_exists; exists x; split; [exact Hin|apply String.eqb_refl]).
    congruence.
  - intros H. destruct (existsb (String.eqb x) seen) eqn:E; [|reflexivity].
    apply existsb_exists in E. destruct E as (y & Hy & Hxy).
    apply String.eqb_eq in Hxy. subst y. contradiction.
Qed.

Lemma successors_nodes n w : In w (successors G n) -> In w (node_list G).
Proof.
  intros H. apply successors_has_edge, has_edge_keys in H.
  unfold node_list. apply in_or_app. right.
  apply in_map_iff in H. destruct H as (e & He & Hin).
  apply in_map_iff. exists e. split; [rewrite He; reflexivity|exact Hin].
Qed.

Lemma successors_NoDup n : NoDup (successors G n).
Proof.
  unfold wf in G_wf. unfold successors. revert G_wf.
  induction G as [|e G' IH]; intros Hnd; simpl; [constructor|].
  inversion Hnd as [|k ks Hk Hnd']; subst.
  destruct (fst (fst e) =? n)%string eqn:E; [|apply IH; exact Hnd'].
  simpl. constructor; [|apply IH; exact Hnd'].
  intros Hin. apply Hk. apply in_map_iff in Hin.
  destruct Hin as (e' & He' & Hin'). apply filter_In in Hin'.
  destruct Hin' as [Hin' En]. apply String.eqb_eq in E, En.
  apply in_map_iff. exists e'. split; [|exact Hin'].
  destruct e as [[x y] a], e' as [[x' y'] a']. simpl in *. congruence.
Qed.

Lemma unseen_shrinks seen fresh :
  NoDup fresh -> (forall w, In w fresh -> In w (node_list G) /\ ~ In w seen) ->
  (List.length (unseen G (seen ++ fresh)) + List.length fresh
   <= List.length (unseen G seen))%nat.
Proof.
  intros Hnd Hfresh. rewrite <- length_app. apply NoDup_incl_length.
  - apply NoDup_app.
    + apply NoDup_filter, NoDup_nodup.
    + exact Hnd.
    + intros x Hx Hin. apply filter_In in Hx. destruct Hx as [_ Hx].
      apply unseenb_true in Hx. apply Hx. apply in_or_app. right. exact Hin.
  - intros x Hx. apply in_app_or in Hx. apply filter_In.
    destruct Hx as [Hx|Hx].
    + apply filter_In in Hx. destruct Hx as [Hn Hx]. split; [exact Hn|].
      apply unseenb_true in Hx. apply unseenb_true. intros Hin. apply Hx.
      apply in_or_app. left. exact Hin.
    + destruct (Hfresh x Hx) as [Hn Hs]. split; [apply nodup_In; exact Hn|].
      apply unseenb_true. exact Hs.
Qed.

(** One more round changes nothing once the fuel exceeds the queue length
    plus the number of nodes not seen yet. *)
Lemma bfs_fuel_stable fuel : forall seen queue,
  (List.length queue + List.length (unseen G seen) < fuel)%nat ->
  bfs (S fuel) G target seen queue = bfs fuel G target seen queue.
Proof.
  induction fuel as [|fuel IH]; intros seen queue Hlt; [lia|].
  change (bfs (S (S fuel)) G target seen queue)
    with (match queue with
          | [] => None
          | [] :: rest => bfs (S fuel) G target seen rest
          | (n :: trail) :: rest =>
              if (n =? target)%string then Some (rev (n :: trail))
              else
                let fresh := filter (unseenb seen) (successors G n) in
                bfs (S fuel) G target (seen ++ fresh)
                    (rest ++ map (fun w => w :: n :: trail) fresh)
          end).
  change (bfs (S fuel) G target seen queue)
    with (match queue with
          | [] => None
          | [] :: rest => bfs fuel G target seen rest
          | (n :: trail) :: rest =>
              if (n =? target)%string then Some (rev (n :: trail))
              else
                let fresh := filter (unseenb seen) (successors G n) in
                bfs fuel G target (seen ++ fresh)
                    (rest ++ map (fun w => w :: n :: trail) fresh)
          end).
  destruct queue as [|[|n trail] rest]; [reflexivity| |].
  - apply IH. simpl in Hlt. lia.
  - destruct (n =? target)%string; [reflexivity|]. cbv zeta. apply IH.
    set (fresh := filter (unseenb seen) (successors G n)).
    assert (List.length (unseen G (seen ++ fresh)) + List.length fresh
            <= List.length (unseen G seen))%nat as Hshrink.
    { apply unseen_shrinks.
      - apply NoDup_filter, successors_NoDup.
      - intros w Hw. apply filter_In in Hw. destruct Hw as [Hs Hu].
        split; [eapply successors_nodes; exact Hs|apply unseenb_true; exact Hu]. }
    rewrite length_app, length_map. simpl in Hlt. lia.
Qed.

Lemma bfs_fuel_enough fuel extra seen queue :
  (List.length queue + List.length (unseen G seen) < fuel)%nat ->
  bfs (fuel + extra) G target seen queue = bfs fuel G target seen queue.
Proof.
  intros Hlt. induction extra as [|extra IH].
  - rewrite Nat.add_0_r. reflexivity.
  - rewrite Nat.add_succ_r, bfs_fuel_stable; [exact IH|lia].
Qed.

Lemma start_potential source :
  has_node G source = true ->
  (List.length [[source]] + List.length (unseen G [source])
   < S (2 * List.length G))%nat.
Proof.
  intros Hs.
  assert (In source (node_list G)) as Hin.
  { apply has_node_spec in Hs. destruct Hs as (m & [H|H]);
      apply in_map_iff in H; destruct H as (e & He & Hin);
      unfold node_list; apply in_or_app; [left|right];
      apply in_map_iff; exists e; (split; [rewrite He; reflexivity|exact Hin]). }
  assert (List.length (unseen G [source] ++ [source])
          <= List.length (nodup string_dec (node_list G)))%nat as H1.
  { apply NoDup_incl_length.
    - apply NoDup_app.
      + apply NoDup_filter, NoDup_nodup.
      + constructor; [simpl; tauto|constructor].
      + intros x Hx [<-|[]]. apply filter_In in Hx. destruct Hx as [_ Hx].
        apply unseenb_true in Hx. apply Hx. left. reflexivity.
    - intros x Hx. apply in_app_or in Hx. destruct Hx as [Hx|[<-|[]]].
      + apply filter_In in Hx. tauto.
      + apply nodup_In. exact Hin. }
  assert (List.length (nodup string_dec (node_list G)) <= List.length (node_list G))%nat as H2.
  { apply NoDup_incl_length; [apply NoDup_nodup|].
    intros x Hx. apply nodup_In in Hx. exact Hx. }
  assert (List.length (node_list G) = 2 * List.length G)%nat as H3.
  { unfold node_list. rewrite length_app, !length_map. lia. }
  rewrite length_app in H1. cbn [List.length] in *. lia.
Qed.

End Fuel.

Section Complete.
Context {A : Type}.
Variables (G : DiGraph A) (target : node).
Hypothesis G_wf : wf G.

Lemma settled_mono seen seen' x :
  incl seen seen' -> settled G target seen x -> settled G target seen' x.
Proof. intros Hs [Hne Hw]. split; [exact Hne|]. intros w He. auto. Qed.

Lemma bfs_none fuel : forall seen queue,
  (List.length queue + List.length (unseen G seen) < fuel)%nat ->
  frontier_ok G target seen queue ->
  bfs fuel G target seen queue = None ->
  exists final, incl seen final /\ forall x, In x final -> settled G target final x.
Proof.
  induction fuel as [|fuel IH]; intros seen queue Hlt Hok; [lia|].
  destruct queue as [|[|n trail] rest]; cbn [bfs].
  - intros _. exists seen. split; [apply incl_refl|].
    intros x Hx. destruct (Hok x Hx) as [(q & [] & _)|H]. exact H.
  - apply IH; [simpl in Hlt; lia|].
    intros x Hx. destruct (Hok x Hx) as [(q & [<-|Hq] & Hhd)|H];
      [discriminate|left; eauto|right; exact H].
  - destruct (n =? target)%string eqn:E; [discriminate|].
    apply String.eqb_neq in E.
    set (fresh := filter (unseenb seen) (successors G n)).
    intros Hnone. apply IH in Hnone.
    + destruct Hnone as (final & Hincl & Hfinal). exists final.
      split; [|exact Hfinal]. intros x Hx. apply Hincl, in_or_app. left. exact Hx.
    + assert (List.length (unseen G (seen ++ fresh)) + List.length fresh
              <= List.length (unseen G seen))%nat as Hshrink.
      { apply unseen_shrinks.
        - apply NoDup_filter, successors_NoDup. exact G_wf.
        - intros w Hw. apply filter_In in Hw. destruct Hw as [Hs Hu].
          split; [eapply successors_nodes; exact Hs|].
          apply unseenb_true. exact Hu. }
      rewrite length_app, length_map. simpl in Hlt. lia.
    + intros x Hx. apply in_app_or in Hx. destruct Hx as [Hx|Hx].
      * destruct (Hok x Hx) as [(q & [<-|Hq] & Hhd)|H].
        -- injection Hhd as <-. right. split; [exact E|].
           intros w Hw. apply in_or_app.
           destruct (unseenb seen w) eqn:Hseen.
           ++ right. apply filter_In. split; [|exact Hseen].
              apply successors_has_edge. exact Hw.
           ++ left. destruct (in_dec string_dec w seen) as [Hin|Hout];
                [exact Hin|].
              apply unseenb_true in Hout. congruence.
        -- left. exists q. split; [apply in_or_app; left; exact Hq|exact Hhd].
        -- right. eapply settled_mono; [|exact H]. apply incl_appl, incl_refl.
      * left. exists (x :: n :: trail). split; [|reflexivity].
        apply in_or_app. right. apply in_map_iff. exists x. auto.
Qed.

Lemma settled_closed final : forall p s,
  (forall x, In x final -> settled G target final x) ->
  In s final -> hd_error p = Some s -> walk G p ->
  forall x, In x p -> In x final.
Proof.
  induction p as [|y p IH]; intros s Hfinal Hs Hhd Hwalk x Hx; [destruct Hx|].
  injection Hhd as ->. destruct Hx as [<-|Hx]; [exact Hs|].
  destruct p as [|z p]; [destruct Hx|].
  unfold walk in Hwalk. simpl in Hwalk. inversion Hwalk as [|h hs He Hrest]; subst.
  apply (IH z); trivial.
  destruct (Hfinal s Hs) as [_ Hsucc]. apply Hsucc. exact He.
Qed.

Lemma shortest_path_no_path source :
  shortest_path G source target = Raise NetworkXNoPath ->
  has_node G source = true /\ has_node G target = true /\
  ~ reachable G source target.
Proof.
  unfold shortest_path.
  destruct (has_node G source) eqn:Hs; [|discriminate].
  destruct (has_node G target) eqn:Ht; [|discriminate]. cbn [negb orb].
  destruct (bfs (S (2 * List.length G)) G target [source] [[source]]) eqn:E;
    [discriminate|].
  intros _. split; [reflexivity|]. split; [reflexivity|].
  apply bfs_none in E.
  - destruct E as (final & Hincl & Hfinal).
    intros (p & Hhd & (front & ->) & Hwalk).
    assert (In target final) as Hin.
    { apply (settled_closed final (front ++ [target]) source); trivial.
      - apply Hincl. left. reflexivity.
      - apply in_or_app. right. left. reflexivity. }
    destruct (Hfinal target Hin) as [Hne _]. apply Hne. reflexivity.
  - apply start_potential. exact Hs.
  - intros x [<-|[]]. left. exists [source]. split; [left|]; reflexivity.
Qed.
End Complete.

Lemma simple_path_reachable {A : Type} (G : DiGraph A) s t p :
  simple_path G s t p -> reachable G s t.
Proof. intros (Hhd & Hlast & _ & Hwalk). exists p. auto. Qed.

(** The three outcomes of [shortest_path] on a graph with every key once. *)
Lemma shortest_path_spec {A : Type} (G : DiGraph A) (s t : node) :
  wf G ->
  match shortest_path G s t with
  | Ret p => simple_path G s t p
  | Raise NetworkXNoPath =>
      has_node G s = true /\ has_node G t = true /\ ~ reachable G s t
  | Raise NodeNotFound => has_node G s = false \/ has_node G t = false
  | Raise _ => False
  end.
Proof.
  intros Hwf. destruct (shortest_path G s t) as [p|e] eqn:E.
  - apply shortest_path_sound. exact E.
  - destruct (shortest_path_raises G s t e E) as [-> | ->].
    + unfold shortest_path in E.
      destruct (has_node G s); [|auto]. destruct (has_node G t); [|auto].
      cbn [negb orb] in E.
      destruct (bfs (S (2 * List.length G)) G t [s] [[s]]); discriminate.
    + apply shortest_path_no_path; assumption.
Qed.

(** ** The residual graph *)

Section ResidualFacts.
Variable keep : Z -> bool.

Lemma residual_fold (G : DiGraph attrs) : forall R : DiGraph Z,
  wf G -> (forall u v, In (u, v) (keys G) -> get R u v = None) ->
  forall u v,
    get (fold_left (residual_visit keep) G R) u v =
    match get R u v with
    | Some c => Some c
    | None => match get G u v with Some d => residual_pick keep d | None => None end
    end.
Proof.
  induction G as [|[[x y] d] G IH]; intros R Hwf Hnew u v; simpl.
  - destruct (get R u v); reflexivity.
  - inversion Hwf as [|k ks Hk Hwf']; subst.
    assert (get R x y = None) as Hxy by (apply Hnew; left; reflexivity).
    rewrite IH; [|exact Hwf'|].
    + unfold residual_visit, residual_pick; simpl.
      destruct (arc_is u v (x, y, d)) eqn:E.
      * apply arc_is_true in E. simpl in E. inversion E; subst.
        rewrite Hxy.
        assert (get G u v = None) as -> by (apply get_None; exact Hk).
        destruct (keep (capacity d - flow d)).
        -- rewrite get_add_edge_same. reflexivity.
        -- rewrite Hxy. reflexivity.
      * apply arc_is_false in E. simpl in E.
        destruct (keep (capacity d - flow d)); [|reflexivity].
        rewrite get_add_edge_other by congruence. reflexivity.
    + intros u' v' Hin. unfold residual_visit; simpl.
      destruct (keep (capacity d - flow d)); [|apply Hnew; right; exact Hin].
      rewrite get_add_edge_other; [apply Hnew; right; exact Hin|].
      intros [= -> ->]. apply Hk. exact Hin.
Qed.

Lemma get_residual_graph (G : DiGraph attrs) u v :
  wf G ->
  get (residual_graph keep G) u v =
  match get G u v with Some d => residual_pick keep d | None => None end.
Proof.
  intros Hwf. unfold residual_graph.
  rewrite residual_fold; [reflexivity|exact Hwf|reflexivity].
Qed.

Lemma residual_arc (G : DiGraph attrs) u v :
  wf G -> has_edge (residual_graph keep G) u v = true ->
  exists d, get G u v = Some d /\
            get (residual_graph keep G) u v = Some (capacity d - flow d) /\
            keep (capacity d - flow d) = true.
Proof.
  intros Hwf. unfold has_edge. rewrite get_residual_graph by exact Hwf.
  destruct (get G u v) as [d|]; [|discriminate]. unfold residual_pick.
  destruct (keep (capacity d - flow d)) eqn:E; [|discriminate].
  intros _. exists d. auto.
Qed.

Lemma residual_wf (G : DiGraph attrs) : wf (residual_graph keep G).
Proof.
  unfold residual_graph.
  assert (forall R : DiGraph Z, wf R -> wf (fold_left (residual_visit keep) G R))
    as H.
  { induction G as [|e G' IH]; intros R HR; simpl; [exact HR|].
    apply IH. unfold residual_visit.
    destruct (keep _); [apply wf_add_edge|]; exact HR. }
  apply H. constructor.
Qed.
End ResidualFacts.

(** ** The bottleneck loop *)

Lemma bottleneck_loop_Fin (R : DiGraph Z) hs : forall x,
  bottleneck_loop R hs (Fin x) <> Ret Inf.
Proof.
  induction hs as [|[u v] hs IH]; intros x; simpl; [discriminate|].
  destruct (get R u v); [apply IH|discriminate].
Qed.

Lemma bottleneck_loop_Inf (R : DiGraph Z) hs :
  bottleneck_loop R hs Inf = Ret Inf -> hs = [].
Proof.
  destruct hs as [|[u v] hs]; [reflexivity|]. simpl.
  destruct (get R u v); [|discriminate]. intros H.
  exfalso. eapply bottleneck_loop_Fin. exact H.
Qed.

Lemma bottleneck_loop_min (R : DiGraph Z) hs : forall acc b,
  bottleneck_loop R hs acc = Ret (Fin b) ->
  (forall h, In h hs -> exists c, get R (fst h) (snd h) = Some c /\ b <= c) /\
  (acc = Fin b \/ exists h, In h hs /\ get R (fst h) (snd h) = Some b) /\
  (forall x, acc = Fin x -> b <= x).
Proof.
  induction hs as [|[u v] hs IH]; intros acc b; simpl.
  - intros [= ->]. repeat split; [tauto|auto|intros x [= ->]; lia].
  - destruct (get R u v) as [c|] eqn:E; [|discriminate]. intros H.
    apply IH in H. destruct H as (Hall & Hone & Hacc).
    assert (b <= c) as Hbc.
    { destruct acc as [x|]; simpl in Hacc.
      - specialize (Hacc _ eq_refl). lia.
      - apply (Hacc _ eq_refl). }
    repeat split.
    + intros h [<-|Hin]; [exists c; auto|auto].
    + destruct Hone as [Hone|(h & Hin & Hh)].
      * destruct acc as [x|]; simpl in Hone; injection Hone as Hone.
        -- destruct (Z.min_spec x c) as [[_ Hm]|[_ Hm]].
           ++ left. congruence.
           ++ right. exists (u, v). split; [left; reflexivity|]. simpl. congruence.
        -- right. exists (u, v). split; [left; reflexivity|]. simpl. congruence.
      * right. exists h. auto.
    + intros x ->. simpl in Hacc. specialize (Hacc _ eq_refl). lia.
Qed.

(** ** Augmentation along distinct hops with room *)

Lemma on_hops_In hs x y : on_hops hs x y = true <-> In (x, y) hs.
Proof.
  unfold on_hops. rewrite existsb_exists. split.
  - intros [[u v] [Hin H]]. apply eqb_pair_true in H. simpl in H.
    inversion H; subst. exact Hin.
  - intros Hin. exists (x, y). split; [assumption|]. apply eqb_pair_true.
    reflexivity.
Qed.

Lemma augment_forward (b : Z) hs : forall G : DiGraph attrs,
  NoDup hs ->
  (forall h, In h hs ->
     exists d, get G (fst h) (snd h) = Some d /\ flow d + b <= capacity d) ->
  reverse_hops G hs b = [] /\
  snd (augment G hs b) = None /\
  keys (fst (augment G hs b)) = keys G /\
  forall x y,
    get (fst (augment G hs b)) x y =
    if on_hops hs x y then option_map (push b) (get G x y) else get G x y.
Proof.
  induction hs as [|[u v] hs IH]; intros G Hnd Hroom; simpl.
  - auto.
  - inversion Hnd as [|h hs' Hnotin Hnd']; subst.
    destruct (Hroom (u, v) (or_introl eq_refl)) as (d & Hd & Hle). simpl in Hd.
    unfold pushes_forward. rewrite Hd.
    assert ((capacity d >=? flow d + b) = true) as -> by (apply Z.geb_le; lia).
    set (G1 := alter _ G u v).
    destruct (IH G1 Hnd') as (Hrev & Hexn & Hkeys & Hget).
    { intros h Hin. destruct (Hroom h (or_intror Hin)) as (d' & Hd' & Hle').
      exists d'. split; [|exact Hle']. unfold G1.
      rewrite get_alter_other; [exact Hd'|].
      intros Heq. apply Hnotin. destruct h; simpl in *. congruence. }
    repeat split; trivial.
    + rewrite Hkeys. apply keys_alter.
    + intros x y. rewrite Hget. unfold on_hops; simpl.
      fold (on_hops hs x y).
      destruct ((x =? u)%string && (y =? v)%string) eqn:E; simpl.
      * apply eqb_pair_true in E. inversion E; subst.
        assert (on_hops hs u v = false) as ->.
        { destruct (on_hops hs u v) eqn:F; [|reflexivity].
          apply on_hops_In in F. contradiction. }
        unfold G1. rewrite get_alter_same. reflexivity.
      * assert ((x, y) <> (u, v)) as Hne.
        { intros H. apply eqb_pair_true in H. congruence. }
        unfold G1. rewrite get_alter_other by exact Hne. reflexivity.
Qed.

(** ** One call of [step] on a well-formed graph *)

Lemma bottleneck_loop_total (R : DiGraph Z) hs : forall acc,
  (forall h, In h hs -> has_edge R (fst h) (snd h) = true) ->
  exists m, bottleneck_loop R hs acc = Ret m.
Proof.
  induction hs as [|[u v] hs IH]; intros acc Hall; simpl; [eauto|].
  specialize (Hall (u, v) (or_introl eq_refl)) as Huv.
  unfold has_edge in Huv. simpl in Huv.
  destruct (get R u v); [|discriminate]. apply IH.
  intros h Hin. apply Hall. right. exact Hin.
Qed.

Section StepCore.
Variable keep : Z -> bool.
Hypothesis keep_pos : forall r, keep r = true -> 0 < r.
Variables (G : DiGraph attrs) (source sink : node) (path : list node).
Hypothesis G_wf : wf G.
Hypothesis found :
  shortest_path (residual_graph keep G) source sink = Ret path.

Lemma found_simple : simple_path (residual_graph keep G) source sink path.
Proof. apply shortest_path_sound. exact found. Qed.

Lemma found_hops h :
  In h (hops path) ->
  exists d, get G (fst h) (snd h) = Some d /\
            get (residual_graph keep G) (fst h) (snd h)
            = Some (capacity d - flow d) /\
            0 < capacity d - flow d.
Proof.
  intros Hin. destruct found_simple as (_ & _ & _ & Hwalk).
  unfold walk in Hwalk. rewrite Forall_forall in Hwalk.
  destruct (residual_arc keep G _ _ G_wf (Hwalk h Hin)) as (d & Hd & HR & Hk).
  exists d. auto.
Qed.

(** Either the path has no arc, or the bottleneck is a positive integer
    that fits on every hop. *)
Lemma found_bottleneck :
  (hops path = [] /\
   bottleneck_loop (residual_graph keep G) (hops path) Inf = Ret Inf) \/
  exists b,
    bottleneck_loop (residual_graph keep G) (hops path) Inf = Ret (Fin b) /\
    0 < b /\
    forall h, In h (hops path) ->
      exists d, get G (fst h) (snd h) = Some d /\ flow d + b <= capacity d.
Proof.
  destruct (bottleneck_loop_total (residual_graph keep G) (hops path) Inf)
    as [m Hm].
  { intros h Hin. destruct (found_hops h Hin) as (d & _ & HR & _).
    unfold has_edge. rewrite HR. reflexivity. }
  destruct m as [b|].
  - right. exists b. split; [exact Hm|].
    destruct (bottleneck_loop_min _ _ _ _ Hm) as (Hall & Hone & _).
    split.
    + destruct Hone as [Hone|(h & Hin & Hh)]; [discriminate|].
      destruct (found_hops h Hin) as (d & _ & HR & Hpos).
      rewrite HR in Hh. injection Hh as <-. exact Hpos.
    + intros h Hin. destruct (found_hops h Hin) as (d & Hd & HR & _).
      destruct (Hall h Hin) as (c & Hc & Hbc). rewrite HR in Hc.
      injection Hc as <-. exists d. split; [exact Hd|lia].
  - left. split; [|exact Hm]. apply bottleneck_loop_Inf in Hm. exact Hm.
Qed.

Lemma found_augment b :
  bottleneck_loop (residual_graph keep G) (hops path) Inf = Ret (Fin b) ->
  0 < b /\
  reverse_hops G (hops path) b = [] /\
  snd (augment G (hops path) b) = None /\
  keys (fst (augment G (hops path) b)) = keys G /\
  (forall x y,
     get (fst (augment G (hops path) b)) x y =
     if on_hops (hops path) x y then option_map (push b) (get G x y)
     else get G x y) /\
  (forall h, In h (hops path) ->
     exists d, get G (fst h) (snd h) = Some d /\ flow d + b <= capacity d).
Proof.
  intros Hb. destruct found_bottleneck as [[_ H]|(b' & Hb' & Hpos & Hroom)];
    [congruence|].
  assert (b' = b) as -> by congruence.
  destruct found_simple as (_ & _ & Hnd & _).
  destruct (augment_forward b (hops path) G (NoDup_hops _ Hnd) Hroom)
    as (H1 & H2 & H3 & H4).
  repeat split; trivial; lia.
Qed.

Lemma found_bounded b :
  bounded G ->
  bottleneck_loop (residual_graph keep G) (hops path) Inf = Ret (Fin b) ->
  bounded (fst (augment G (hops path) b)).
Proof.
  intros [_ Hb] Hloop.
  destruct (found_augment b Hloop) as (Hpos & _ & _ & Hkeys & Hget & Hroom).
  split; [unfold wf; rewrite Hkeys; exact G_wf|].
  intros u v d. rewrite Hget.
  destruct (on_hops (hops path) u v) eqn:E; [|apply Hb].
  apply on_hops_In in E. destruct (Hroom _ E) as (d0 & Hd0 & Hle).
  simpl in Hd0. rewrite Hd0. simpl. intros [= <-]. simpl.
  specialize (Hb _ _ _ Hd0). lia.
Qed.
End StepCore.

(** ** What [build_graph] builds *)

Lemma build_wf data : forall G0 : DiGraph attrs,
  wf G0 -> wf (fold_left add_paired data G0).
Proof.
  induction data as [|e data IH]; intros G0 H; simpl; [exact H|].
  apply IH. unfold add_paired.
  destruct (negb _); repeat apply wf_add_edge; exact H.
Qed.

Lemma get_add_edge_inv {A : Type} (G : DiGraph A) u v a x y d :
  get (add_edge G u v a) x y = Some d -> d = a \/ get G x y = Some d.
Proof.
  destruct ((x =? u)%string && (y =? v)%string) eqn:E.
  - apply eqb_pair_true in E. inversion E; subst.
    rewrite get_add_edge_same. intros [= <-]. auto.
  - rewrite get_add_edge_other; [auto|].
    intros H. apply eqb_pair_true in H. congruence.
Qed.

Lemma build_attrs (P : attrs -> Prop) data :
  P (mkAttrs 0 0) ->
  (forall e, In e data -> P (mkAttrs (Edge.capacity e) 0)) ->
  forall G0 : DiGraph attrs,
    (forall u v d, get G0 u v = Some d -> P d) ->
    forall u v d, get (fold_left add_paired data G0) u v = Some d -> P d.
Proof.
  intros P0. induction data as [|e data IH]; intros Pe G0 HG0; simpl;
    [exact HG0|].
  apply IH; [intros e' He'; apply Pe; right; exact He'|].
  intros u v d. unfold add_paired. destruct (negb _).
  - intros H. apply get_add_edge_inv in H. destruct H as [->|H]; [exact P0|].
    apply get_add_edge_inv in H. destruct H as [->|H]; [|eauto].
    apply Pe. left. reflexivity.
  - intros H. apply get_add_edge_inv in H. destruct H as [->|H]; [|eauto].
    apply Pe. left. reflexivity.
Qed.

Lemma wf_nil {A : Type} : wf (@nil (node * node * A)).
Proof. constructor. Qed.

Lemma build_bounded data : bounded (fold_left add_paired data []).
Proof.
  split; [apply build_wf, wf_nil|].
  apply (build_attrs (fun d => 0 <= flow d <= Z.max 0 (capacity d))); simpl.
  - lia.
  - intros e _. lia.
  - discriminate.
Qed.

Lemma build_zero_flow data e :
  In e (fold_left add_paired data []) -> flow (snd e) = 0.
Proof.
  intros Hin. destruct e as [[u v] d]. simpl.
  apply (build_attrs (fun d => flow d = 0) data) with (G0 := []) (u := u) (v := v);
    try reflexivity; [discriminate|].
  apply In_get; [apply build_wf, wf_nil|exact Hin].
Qed.


(** ** The steppers keep the flows within the capacities *)

Lemma gtb_pos r : (r >? 0) = true -> 0 < r.
Proof. intros H. apply Z.gtb_lt in H. exact H. Qed.

Lemma plain_step_bounded self s t :
  bounded (FordFulkerson.graph self) ->
  bounded (FordFulkerson.graph (snd (FordFulkerson.step self s t))) /\
  plain_reverse_hops self s t = [].
Proof.
  intros Hb. unfold FordFulkerson.step, plain_reverse_hops, reverse_hops_of.
  unfold FordFulkerson.get_residual_graph.
  destruct (shortest_path _ s t) as [path|e] eqn:Hsp.
  - destruct (found_bottleneck _ gtb_pos _ _ _ _ (proj1 Hb) Hsp)
      as [[_ Hinf]|(b & Hloop & _)].
    + rewrite Hinf. simpl. auto.
    + rewrite Hloop.
      destruct (found_augment _ gtb_pos _ _ _ _ (proj1 Hb) Hsp b Hloop)
        as (_ & Hrev & Hexn & _).
      pose proof (found_bounded _ gtb_pos _ _ _ _ (proj1 Hb) Hsp b Hb Hloop)
        as Hb'.
      destruct (augment _ _ b) as [G' o]. simpl in *. subst o. simpl. auto.
  - destruct e; simpl; auto.
Qed.

Lemma geb_delta_pos delta r : (delta <? 1) = false -> (r >=? delta) = true -> 0 < r.
Proof. intros H1 H2. apply Z.ltb_ge in H1. apply Z.geb_le in H2. lia. Qed.

Lemma scaling_step_bounded self s t :
  bounded (CapacityScaling.graph self) ->
  bounded (CapacityScaling.graph (snd (CapacityScaling.step self s t))) /\
  scaling_reverse_hops self s t = [].
Proof.
  intros Hb. unfold CapacityScaling.step, scaling_reverse_hops, reverse_hops_of.
  destruct (CapacityScaling.delta self <? 1) eqn:Hd; [simpl; auto|].
  unfold CapacityScaling.delta_residual_graph.
  assert (forall r, (r >=? CapacityScaling.delta self) = true -> 0 < r)
    as Hpos by (intros r; apply geb_delta_pos; exact Hd).
  destruct (shortest_path _ s t) as [path|e] eqn:Hsp.
  - destruct (found_bottleneck _ Hpos _ _ _ _ (proj1 Hb) Hsp)
      as [[_ Hinf]|(b & Hloop & _)].
    + rewrite Hinf. simpl. auto.
    + rewrite Hloop.
      destruct (found_augment _ Hpos _ _ _ _ (proj1 Hb) Hsp b Hloop)
        as (_ & Hrev & Hexn & _).
      pose proof (found_bounded _ Hpos _ _ _ _ (proj1 Hb) Hsp b Hb Hloop)
        as Hb'.
      destruct (augment _ _ b) as [G' o]. simpl in *. subst o. simpl. auto.
  - destruct e; simpl; auto.
Qed.

(** ** Flow sums under augmentation *)

Lemma sumZ_cons x l : sumZ (x :: l) = x + sumZ l.
Proof. reflexivity. Qed.

#[local] Arguments sumZ : simpl never.

Lemma outflow_push b (G : DiGraph attrs) u v n : forall d,
  get G u v = Some d ->
  outflow (alter (push b) G u v) n
  = outflow G n + (if (u =? n)%string then b else 0).
Proof.
  unfold outflow. induction G as [|e G IH]; intros d; simpl; [discriminate|].
  destruct (arc_is u v e) eqn:E.
  - intros _. apply arc_is_true in E. destruct e as [[x y] a]. simpl in *.
    inversion E; subst. unfold push.
    destruct (u =? n)%string; simpl; rewrite ?sumZ_cons; simpl; lia.
  - intros Hd. simpl. destruct (fst (fst e) =? n)%string; simpl;
      rewrite ?sumZ_cons, (IH _ Hd); lia.
Qed.

Lemma inflow_push b (G : DiGraph attrs) u v n : forall d,
  get G u v = Some d ->
  inflow (alter (push b) G u v) n
  = inflow G n + (if (v =? n)%string then b else 0).
Proof.
  unfold inflow. induction G as [|e G IH]; intros d; simpl; [discriminate|].
  destruct (arc_is u v e) eqn:E.
  - intros _. apply arc_is_true in E. destruct e as [[x y] a]. simpl in *.
    inversion E; subst. unfold push.
    destruct (v =? n)%string; simpl; rewrite ?sumZ_cons; simpl; lia.
  - intros Hd. simpl. destruct (snd (fst e) =? n)%string; simpl;
      rewrite ?sumZ_cons, (IH _ Hd); lia.
Qed.

Lemma cnt_cons x l n :
  cnt (x :: l) n = (if (x =? n)%string then 1 else 0) + cnt l n.
Proof.
  unfold cnt. simpl. destruct (string_dec x n) as [->|Hne].
  - rewrite String.eqb_refl. lia.
  - apply String.eqb_neq in Hne. rewrite Hne. lia.
Qed.

Lemma cnt_app l l' n : cnt (l ++ l') n = cnt l n + cnt l' n.
Proof. unfold cnt. rewrite count_occ_app. lia. Qed.

Lemma augment_flows (b : Z) hs : forall G : DiGraph attrs,
  NoDup hs ->
  (forall h, In h hs ->
     exists d, get G (fst h) (snd h) = Some d /\ flow d + b <= capacity d) ->
  forall n,
    outflow (fst (augment G hs b)) n = outflow G n + b * cnt (map fst hs) n /\
    inflow (fst (augment G hs b)) n = inflow G n + b * cnt (map snd hs) n.
Proof.
  induction hs as [|[u v] hs IH]; intros G Hnd Hroom n; simpl.
  - unfold cnt. simpl. lia.
  - inversion Hnd as [|h hs' Hnotin Hnd']; subst.
    destruct (Hroom (u, v) (or_introl eq_refl)) as (d & Hd & Hle). simpl in Hd.
    unfold pushes_forward. rewrite Hd.
    assert ((capacity d >=? flow d + b) = true) as -> by (apply Z.geb_le; lia).
    change (fun d0 : attrs => mkAttrs (capacity d0) (flow d0 + b)) with (push b).
    destruct (IH (alter (push b) G u v) Hnd') with (n := n) as [Hout Hin].
    { intros h Hin. destruct (Hroom h (or_intror Hin)) as (d' & Hd' & Hle').
      exists d'. split; [|exact Hle'].
      rewrite get_alter_other; [exact Hd'|].
      intros Heq. apply Hnotin. destruct h; simpl in *.
      inversion Heq; subst. exact Hin. }
    rewrite Hout, Hin, (outflow_push b G u v n d Hd), (inflow_push b G u v n d Hd).
    rewrite !cnt_cons. split; destruct (_ =? n)%string; lia.
Qed.

Lemma path_ends (s t : node) (p : list node) :
  s <> t -> hd_error p = Some s -> (exists front, p = front ++ [t]) ->
  exists mid, p = s :: mid ++ [t].
Proof.
  intros Hne Hhd [front ->]. destruct front as [|x front]; simpl in Hhd.
  - congruence.
  - injection Hhd as ->. exists front. reflexivity.
Qed.

Lemma removelast_snoc {B : Type} (l : list B) x : removelast (l ++ [x]) = l.
Proof. rewrite removelast_app by discriminate. simpl. apply app_nil_r. Qed.

Lemma path_net (s t : node) (mid : list node) n :
  cnt (removelast (s :: mid ++ [t])) n - cnt (tl (s :: mid ++ [t])) n
  = (if (s =? n)%string then 1 else 0) - (if (t =? n)%string then 1 else 0).
Proof.
  change (s :: mid ++ [t]) with ((s :: mid) ++ [t]) at 1.
  rewrite removelast_snoc. simpl tl.
  rewrite cnt_cons, cnt_app, cnt_cons. unfold cnt at 3. simpl. lia.
Qed.

(** ** The plain stepper conserves flow *)


Lemma zero_flow_sums (G : DiGraph attrs) n :
  (forall e, In e G -> flow (snd e) = 0) -> outflow G n = 0 /\ inflow G n = 0.
Proof.
  unfold outflow, inflow. induction G as [|e G IH]; intros H; simpl; [auto|].
  destruct IH as [IHo IHi]; [intros e' He'; apply H; right; exact He'|].
  pose proof (H e (or_introl eq_refl)) as He.
  split; [destruct (fst (fst e) =? n)%string|destruct (snd (fst e) =? n)%string];
    simpl; rewrite ?sumZ_cons; lia.
Qed.

Lemma build_conserved data s t :
  plain_conserved (FordFulkerson.build_graph data) s t.
Proof.
  split; [apply build_wf, wf_nil|]. exists 0. split; [reflexivity|].
  assert (forall n, outflow (fold_left add_paired data []) n = 0 /\
                    inflow (fold_left add_paired data []) n = 0) as Hz.
  { intros n. apply zero_flow_sums. intros e. apply build_zero_flow. }
  unfold conserved. simpl. repeat split.
  - intros n _ _. destruct (Hz n) as [-> ->]. reflexivity.
  - destruct (Hz s) as [-> ->]. reflexivity.
  - destruct (Hz t) as [-> ->]. reflexivity.
Qed.

(** ** Invariants along a run *)

Lemma plain_calls_bounded calls : forall self,
  bounded (FordFulkerson.graph self) ->
  bounded (FordFulkerson.graph (Run.plain_calls self calls)).
Proof.
  unfold Run.plain_calls.
  induction calls as [|c calls IH]; intros self H; simpl; [exact H|].
  apply IH. apply plain_step_bounded. exact H.
Qed.

Lemma scaling_calls_bounded calls : forall self,
  bounded (CapacityScaling.graph self) ->
  bounded (CapacityScaling.graph (Run.scaling_calls self calls)).
Proof.
  unfold Run.scaling_calls.
  induction calls as [|c calls IH]; intros self H; simpl; [exact H|].
  apply IH. apply scaling_step_bounded. exact H.
Qed.






(** ** Terminal states *)

Lemma plain_terminal self s t r :
  fst (FordFulkerson.step self s t) = Ret (None, r) ->
  FordFulkerson.step self s t = (Ret (None, Fin 0), self).
Proof.
  unfold FordFulkerson.step.
  destruct (shortest_path _ s t) as [path|e].
  - destruct (bottleneck_loop _ _ Inf) as [[b|]|e]; simpl; try discriminate.
    destruct (augment _ _ b) as [G' [e|]]; simpl; discriminate.
  - destruct e; simpl; try discriminate. reflexivity.
Qed.

Lemma scaling_terminal self s t r msg :
  fst (CapacityScaling.step self s t) = Ret (None, r, msg) ->
  CapacityScaling.delta self < 1 /\
  CapacityScaling.step self s t = (Ret (None, Fin 0, "Algorithm Complete"), self).
Proof.
  unfold CapacityScaling.step.
  destruct (CapacityScaling.delta self <? 1) eqn:Hd.
  - intros _. apply Z.ltb_lt in Hd. auto.
  - destruct (shortest_path _ s t) as [path|e].
    + destruct (bottleneck_loop _ _ Inf) as [[b|]|e]; simpl; try discriminate.
      destruct (augment _ _ b) as [G' [e|]]; simpl; discriminate.
    + destruct e; simpl; discriminate.
Qed.

(** C6: once [step] has returned the terminal signal --- [(None, 0)] for the
    plain stepper, [(None, 0, "Algorithm Complete")] for the scaling stepper,
    which it returns only with [delta < 1] --- every later call with the same
    endpoints returns that signal again and the object (every flow, the
    running total, [delta]) stays as it was. *)
Theorem terminal_signal_repeats :
  (forall self s t,
     fst (FordFulkerson.step self s t) = Ret (None, Fin 0) ->
     forall n,
       Run.plain n self s t = self /\
       FordFulkerson.step (Run.plain n self s t) s t
       = (Ret (None, Fin 0), self)) /\
  (forall self s t,
     fst (CapacityScaling.step self s t)
     = Ret (None, Fin 0, "Algorithm Complete") ->
     CapacityScaling.delta self < 1 /\
     forall n,
       Run.scaling n self s t = self /\
       CapacityScaling.step (Run.scaling n self s t) s t
       = (Ret (None, Fin 0, "Algorithm Complete"), self)).
Proof.
  split.
  - intros self s t H n. apply plain_terminal in H.
    assert (Run.plain n self s t = self) as Hrun.
    { induction n as [|n IH]; simpl; [reflexivity|]. rewrite H. exact IH. }
    rewrite Hrun. auto.
  - intros self s t H. apply scaling_terminal in H. destruct H as [Hd H].
    split; [exact Hd|]. intros n.
    assert (Run.scaling n self s t = self) as Hrun.
    { induction n as [|n IH]; simpl; [reflexivity|]. rewrite H. exact IH. }
    rewrite Hrun. auto.
Qed.

Lemma terminal_signal_repeats_witness :
  fst (FordFulkerson.step
         (Run.plain 5 (FordFulkerson.build_graph rail_data) "S" "T") "S" "T")
  = Ret (None, Fin 0) /\
  Run.plain 4 (Run.plain 5 (FordFulkerson.build_graph rail_data) "S" "T")
            "S" "T"
  = Run.plain 5 (FordFulkerson.build_graph rail_data) "S" "T" /\
  fst (CapacityScaling.step
         (Run.scaling 5 (CapacityScaling.build_graph detour_data) "S" "T")
         "S" "T")
  = Ret (None, Fin 0, "Algorithm Complete") /\
  Run.scaling 4 (Run.scaling 5 (CapacityScaling.build_graph detour_data) "S" "T")
              "S" "T"
  = Run.scaling 5 (CapacityScaling.build_graph detour_data) "S" "T".
Proof.
  assert (fst (FordFulkerson.step
                 (Run.plain 5 (FordFulkerson.build_graph rail_data) "S" "T")
                 "S" "T") = Ret (None, Fin 0)) as Hp
    by (vm_compute; reflexivity).
  assert (fst (CapacityScaling.step
                 (Run.scaling 5 (CapacityScaling.build_graph detour_data)
                              "S" "T") "S" "T")
          = Ret (None, Fin 0, "Algorithm Complete")) as Hs
    by (vm_compute; reflexivity).
  split; [exact Hp|]. split.
  - exact (proj1 (proj1 terminal_signal_repeats _ _ _ Hp 4%nat)).
  - split; [exact Hs|].
    exact (proj1 (proj2 (proj2 terminal_signal_repeats _ _ _ Hs) 4%nat)).
Defined.

(** ** The scaling threshold *)

(** C5 fails as stated: at [delta = 1] with no path, the call that takes
    [delta] to 0 still returns the reducing-delta message with the empty
    list, not the terminal signal, which only the next call returns. *)
Lemma no_path_at_delta_one_counterexample :
  let self := CapacityScaling.build_graph [Edge.mk "S" "A" 1; Edge.mk "B" "T" 1] in
  CapacityScaling.delta self = 1 /\
  shortest_path (CapacityScaling.delta_residual_graph self) "S" "T"
  = Raise NetworkXNoPath /\
  CapacityScaling.delta (snd (CapacityScaling.step self "S" "T")) < 1 /\
  fst (CapacityScaling.step self "S" "T")
  = Ret (Some [], Fin 0, "No path at Delta=1. Reducing Delta to 0") /\
  fst (CapacityScaling.step (snd (CapacityScaling.step self "S" "T")) "S" "T")
  = Ret (None, Fin 0, "Algorithm Complete") /\
  fst (CapacityScaling.step self "S" "T")
  <> Ret (None, Fin 0, "Algorithm Complete").
Proof.
  vm_compute. repeat split; discriminate.
Qed.

(** C5, amended: when the finder reports no path at a threshold
    [delta >= 1], [step] halves [delta] (integer division) and returns the
    empty list, 0 and the reducing-delta message, also when the new [delta]
    is 0; with a new [delta >= 1] the stepper keeps stepping, and with a new
    [delta < 1] it is complete and the next call returns the terminal
    signal. *)
Theorem no_path_halves_delta (self : CapacityScaling.t) (s t : node) :
  1 <= CapacityScaling.delta self ->
  shortest_path (CapacityScaling.delta_residual_graph self) s t
  = Raise NetworkXNoPath ->
  let self' := snd (CapacityScaling.step self s t) in
  fst (CapacityScaling.step self s t)
  = Ret (Some [], Fin 0,
         ("No path at Delta=" ++ str (CapacityScaling.delta self)
          ++ ". Reducing Delta to " ++ str (CapacityScaling.delta self / 2))%string) /\
  CapacityScaling.graph self' = CapacityScaling.graph self /\
  CapacityScaling.delta self' = CapacityScaling.delta self / 2 /\
  0 <= CapacityScaling.delta self' /\
  (2 <= CapacityScaling.delta self -> 1 <= CapacityScaling.delta self') /\
  (CapacityScaling.delta self' < 1 ->
   CapacityScaling.delta self = 1 /\
   CapacityScaling.step self' s t
   = (Ret (None, Fin 0, "Algorithm Complete"), self')).
Proof.
  intros Hd Hsp self'. unfold self', CapacityScaling.step.
  assert ((CapacityScaling.delta self <? 1) = false) as -> by (apply Z.ltb_ge; lia).
  rewrite Hsp. cbn [fst snd CapacityScaling.graph CapacityScaling.delta].
  assert (0 <= CapacityScaling.delta self / 2) as H0 by (apply Z.div_pos; lia).
  repeat split; trivial.
  - intros H2. apply Z.div_le_lower_bound; lia.
  - assert (CapacityScaling.delta self / 2 = 0) as Hz by lia.
    apply Z.div_small_iff in Hz; lia.
  - assert ((CapacityScaling.delta self / 2 <? 1) = true) as ->
      by (apply Z.ltb_lt; lia).
    reflexivity.
Qed.

Lemma no_path_halves_delta_witness :
  let self := CapacityScaling.build_graph [Edge.mk "S" "A" 1; Edge.mk "B" "T" 1] in
  1 <= CapacityScaling.delta self /\
  shortest_path (CapacityScaling.delta_residual_graph self) "S" "T"
  = Raise NetworkXNoPath /\
  CapacityScaling.delta (snd (CapacityScaling.step self "S" "T"))
  = CapacityScaling.delta self / 2.
Proof.
  intros self.
  assert (1 <= CapacityScaling.delta self) as Hd by (vm_compute; discriminate).
  assert (shortest_path (CapacityScaling.delta_residual_graph self) "S" "T"
          = Raise NetworkXNoPath) as Hsp by (vm_compute; reflexivity).
  split; [exact Hd|]. split; [exact Hsp|].
  exact (proj1 (proj2 (proj2 (no_path_halves_delta self "S" "T" Hd Hsp)))).
Defined.

Lemma max_capacity_spec data : forall a,
  let m := fold_left (fun max_cap edge => Z.max max_cap (Edge.capacity edge))
                     data a in
  a <= m /\ (forall e, In e data -> Edge.capacity e <= m) /\
  (m = a \/ exists e, In e data /\ Edge.capacity e = m).
Proof.
  induction data as [|e data IH]; intros a; simpl.
  - repeat split; [lia|tauto|auto].
  - destruct (IH (Z.max a (Edge.capacity e))) as (Hle & Hall & Hone).
    repeat split.
    + lia.
    + intros e' [<-|Hin]; [lia|auto].
    + destruct Hone as [Hone|(e' & Hin & He')].
      * destruct (Z.max_spec a (Edge.capacity e)) as [[_ Hm]|[_ Hm]].
        -- right. exists e. split; [left; reflexivity|lia].
        -- left. lia.
      * right. exists e'. auto.
Qed.

Lemma max_capacity_declared data m :
  max_declared data m -> CapacityScaling.max_capacity data = Z.max 0 m.
Proof.
  intros [(e & Hin & He) Hall]. unfold CapacityScaling.max_capacity.
  destruct (max_capacity_spec data 0) as (H0 & Hle & Hone).
  specialize (Hle e Hin).
  destruct Hone as [Hone|(e' & Hin' & He')]; [lia|].
  specialize (Hall e' Hin'). lia.
Qed.

Lemma double_up_spec max_cap fuel : forall delta,
  1 <= delta -> max_cap < delta + Z.of_nat fuel ->
  (exists k, 0 <= k /\ delta = 2 ^ k) ->
  let r := CapacityScaling.double_up fuel delta max_cap in
  (exists k, 0 <= k /\ r = 2 ^ k) /\ (r = delta \/ r <= max_cap) /\
  max_cap < 2 * r.
Proof.
  induction fuel as [|fuel IH]; intros delta H1 Hfuel Hpow;
    cbv zeta; cbn [CapacityScaling.double_up].
  - repeat split; [exact Hpow|auto|lia].
  - destruct (delta * 2 <=? max_cap) eqn:E.
    + apply Z.leb_le in E.
      destruct (IH (delta * 2)) as (Hp & Hr & Hm); [lia|lia| |].
      * destruct Hpow as (k & Hk & ->). exists (k + 1). split; [lia|].
        rewrite Z.pow_add_r by lia. reflexivity.
      * repeat split; [exact Hp| |exact Hm].
        right. destruct Hr as [->|Hr]; lia.
    + apply Z.leb_gt in E. repeat split; [exact Hpow|auto|lia].
Qed.

Lemma initial_delta_spec data :
  let m := CapacityScaling.max_capacity data in
  let d := CapacityScaling.delta (CapacityScaling.build_graph data) in
  (1 <= m -> largest_power_of_two_le d m) /\ (m < 1 -> d = 1).
Proof.
  intros m d. unfold d, CapacityScaling.build_graph. simpl. fold m.
  assert (0 <= m) as Hm0.
  { unfold m, CapacityScaling.max_capacity.
    apply (max_capacity_spec data 0). }
  destruct (double_up_spec m (Z.to_nat m) 1) as (Hp & Hr & Hlt);
    [lia|rewrite Z2Nat.id; lia|exists 0; split; [lia|reflexivity]|].
  split.
  - intros H1. repeat split; [exact Hp| |exact Hlt]. destruct Hr as [->|Hr]; lia.
  - intros H1. assert (m = 0) as -> by lia. reflexivity.
Qed.

(** C7 fails as stated: with a largest declared capacity of 0 the threshold
    is 1, which is not at most 0. *)
Lemma initial_delta_counterexample :
  max_declared [Edge.mk "S" "T" 0] 0 /\
  ~ largest_power_of_two_le
      (CapacityScaling.delta (CapacityScaling.build_graph [Edge.mk "S" "T" 0]))
      0.
Proof.
  split.
  - split; [exists (Edge.mk "S" "T" 0); simpl; auto|].
    intros e [<-|[]]. simpl. lia.
  - intros (_ & Hle & _). vm_compute in Hle. apply Hle. reflexivity.
Qed.

(** C7, amended: right after [build_graph] of the scaling stepper, [delta] is
    the largest power of two that is at most the largest declared capacity
    whenever that capacity is at least 1; when it is 0 or negative, [delta]
    is 1. *)
Theorem initial_delta (data : list Edge.t) (m : Z) :
  max_declared data m ->
  let d := CapacityScaling.delta (CapacityScaling.build_graph data) in
  (1 <= m -> largest_power_of_two_le d m) /\ (m <= 0 -> d = 1).
Proof.
  intros Hmax d. pose proof (max_capacity_declared data m Hmax) as Hm.
  destruct (initial_delta_spec data) as [Hbig Hsmall]. rewrite Hm in *.
  split.
  - intros H1. rewrite Z.max_r in Hbig by lia. apply Hbig. exact H1.
  - intros H0. apply Hsmall. lia.
Qed.

Lemma initial_delta_witness :
  max_declared rail_data 10 /\
  largest_power_of_two_le
    (CapacityScaling.delta (CapacityScaling.build_graph rail_data)) 10.
Proof.
  assert (max_declared rail_data 10) as H.
  { split; [exists (Edge.mk "S" "A" 10); simpl; auto|].
    intros e He. simpl in He.
    repeat (destruct He as [<-|He]; [simpl; lia|]). destruct He. }
  split; [exact H|]. apply (proj1 (initial_delta rail_data 10 H)). lia.
Defined.

(** ** The arcs that [build_graph] creates *)

Lemma declared_snoc data e u v :
  declared (data ++ [e]) u v =
  if (Edge.u e =? u)%string && (Edge.v e =? v)%string
  then Some (Edge.capacity e) else declared data u v.
Proof. unfold declared. rewrite fold_left_app. reflexivity. Qed.

Lemma declared_None data u v :
  declared data u v = None <->
  forall e, In e data -> (Edge.u e, Edge.v e) <> (u, v).
Proof.
  induction data as [|e data IH] using rev_ind.
  - split; [intros _ e []|reflexivity].
  - rewrite declared_snoc.
    destruct ((Edge.u e =? u)%string && (Edge.v e =? v)%string) eqn:E.
    + apply eqb_pair_true in E. split; [discriminate|].
      intros H. exfalso. apply (H e); [apply in_or_app; right; left; reflexivity|].
      exact E.
    + rewrite IH. split.
      * intros H e' Hin. apply in_app_or in Hin. destruct Hin as [Hin|[<-|[]]].
        -- apply H. exact Hin.
        -- intros Heq. apply eqb_pair_true in Heq. congruence.
      * intros H e' Hin. apply H. apply in_or_app. left. exact Hin.
Qed.

Lemma declared_Some_In data u v c :
  declared data u v = Some c ->
  exists e, In e data /\ Edge.u e = u /\ Edge.v e = v /\ Edge.capacity e = c.
Proof.
  induction data as [|e data IH] using rev_ind; [discriminate|].
  rewrite declared_snoc.
  destruct ((Edge.u e =? u)%string && (Edge.v e =? v)%string) eqn:E.
  - apply eqb_pair_true in E. inversion E; subst. intros [= <-].
    exists e. split; [apply in_or_app; right; left; reflexivity|auto].
  - intros H. destruct (IH H) as (e' & Hin & He'). exists e'.
    split; [apply in_or_app; left; exact Hin|exact He'].
Qed.

(** Every arc of the built graph: a declared arc carries the capacity of its
    last declaration, the reverse of a declared arc that is not declared
    itself carries 0, and there is no other arc. *)
Lemma build_get data u v :
  get (fold_left add_paired data []) u v =
  match declared data u v with
  | Some c => Some (mkAttrs c 0)
  | None =>
      match declared data v u with
      | Some _ => Some (mkAttrs 0 0)
      | None => None
      end
  end.
Proof.
  induction data as [|e data IH] using rev_ind; [reflexivity|].
  rewrite fold_left_app. cbn [fold_left]. rewrite !declared_snoc.
  set (G := fold_left add_paired data []) in *.
  destruct e as [eu ev cap]. unfold add_paired. cbn [Edge.u Edge.v Edge.capacity].
  rewrite has_edge_add_edge.
  destruct ((eu =? u)%string && (ev =? v)%string) eqn:Euv.
  - apply eqb_pair_true in Euv. inversion Euv; subst eu ev.
    destruct (negb _) eqn:Erev.
    + apply negb_true_iff, orb_false_iff in Erev. destruct Erev as [Erev _].
      rewrite get_add_edge_other, get_add_edge_same; [reflexivity|].
      intros H. inversion H; subst. rewrite !String.eqb_refl in Erev.
      discriminate.
    + apply get_add_edge_same.
  - assert ((u, v) <> (eu, ev)) as Hne.
    { intros H. inversion H; subst.
      rewrite !String.eqb_refl in Euv. discriminate. }
    destruct ((eu =? v)%string && (ev =? u)%string) eqn:Evu.
    + apply eqb_pair_true in Evu. inversion Evu; subst eu ev.
      assert (((u =? v)%string && (v =? u)%string) = false) as ->.
      { destruct ((u =? v)%string && (v =? u)%string) eqn:F; [|reflexivity].
        apply eqb_pair_true in F. congruence. }
      cbn [orb]. unfold has_edge at 1.
      destruct (get G u v) as [d|] eqn:Hd; cbn [negb].
      * rewrite get_add_edge_other by exact Hne. rewrite Hd.
        destruct (declared data u v); [exact IH|].
        destruct (declared data v u); [exact IH|discriminate].
      * rewrite get_add_edge_same.
        destruct (declared data u v); [discriminate|reflexivity].
    + assert ((u, v) <> (ev, eu)) as Hne'.
      { intros H. inversion H; subst.
        rewrite !String.eqb_refl in Evu. discriminate. }
      destruct (negb _).
      * rewrite !get_add_edge_other by assumption. exact IH.
      * rewrite get_add_edge_other by assumption. exact IH.
Qed.

(** C9: after [build_graph] of either class, every declared arc is in the
    graph together with its reverse; a reverse arc that no entry of the edge
    list declares has capacity 0 and flow 0; and wherever its declaration
    stands in the list, a declared arc has the capacity of its last
    declaration and flow 0. *)
Theorem reverse_arcs_are_paired (data : list Edge.t) (e : Edge.t) :
  In e data ->
  let G := FordFulkerson.graph (FordFulkerson.build_graph data) in
  CapacityScaling.graph (CapacityScaling.build_graph data) = G /\
  has_edge G (Edge.u e) (Edge.v e) = true /\
  has_edge G (Edge.v e) (Edge.u e) = true /\
  ((forall e', In e' data -> (Edge.u e', Edge.v e') <> (Edge.v e, Edge.u e)) ->
   get G (Edge.v e) (Edge.u e) = Some (mkAttrs 0 0)) /\
  (forall u v c, declared data u v = Some c -> get G u v = Some (mkAttrs c 0)).
Proof.
  intros Hin G. unfold G. cbn [FordFulkerson.graph FordFulkerson.build_graph].
  assert (exists c, declared data (Edge.u e) (Edge.v e) = Some c) as [c Hc].
  { destruct (declared data (Edge.u e) (Edge.v e)) eqn:E; [eauto|].
    exfalso. eapply declared_None; [exact E|exact Hin|reflexivity]. }
  split; [reflexivity|]. split; [|split; [|split]].
  - unfold has_edge. rewrite build_get, Hc. reflexivity.
  - unfold has_edge. rewrite build_get.
    destruct (declared data (Edge.v e) (Edge.u e)); [reflexivity|].
    rewrite Hc. reflexivity.
  - intros Hnone. apply declared_None in Hnone. rewrite build_get, Hnone, Hc.
    reflexivity.
  - intros u v c' H. rewrite build_get, H. reflexivity.
Qed.

Lemma reverse_arcs_are_paired_witness :
  In (Edge.mk "A" "C" 8) rail_data /\
  has_edge (FordFulkerson.graph (FordFulkerson.build_graph rail_data)) "C" "A"
  = true /\
  get (FordFulkerson.graph (FordFulkerson.build_graph rail_data)) "C" "A"
  = Some (mkAttrs 0 0).
Proof.
  assert (In (Edge.mk "A" "C" 8) rail_data) as H by (simpl; auto).
  destruct (reverse_arcs_are_paired rail_data _ H) as (_ & _ & Hrev & Hzero & _).
  split; [exact H|]. split; [exact Hrev|]. apply Hzero.
  intros e' He'. simpl in He'.
  repeat (destruct He' as [<-|He']; [discriminate|]). destruct He'.
Defined.

(** C8 fails as stated: an edge list with a negative capacity is accepted
    and its graph is built, by both classes. *)
Lemma negative_capacity_counterexample :
  FordFulkerson.build_graph [Edge.mk "S" "T" (-1)]
  = FordFulkerson.mk [("S", "T", mkAttrs (-1) 0); ("T", "S", mkAttrs 0 0)]
                     (Fin 0) /\
  CapacityScaling.build_graph [Edge.mk "S" "T" (-1)]
  = CapacityScaling.mk [("S", "T", mkAttrs (-1) 0); ("T", "S", mkAttrs 0 0)] 1.
Proof. split; reflexivity. Qed.

(** C8, amended: [build_graph] checks no capacity; for an edge list with a
    negative capacity both classes build the graph, in which the arc of that
    edge and its reverse exist, and the arc stores the capacity of its last
    declaration with flow 0: the negative one unless a later entry declares
    the arc again. *)
Theorem negative_capacity_is_stored (data : list Edge.t) (e : Edge.t) :
  In e data -> Edge.capacity e < 0 ->
  let G := FordFulkerson.graph (FordFulkerson.build_graph data) in
  CapacityScaling.graph (CapacityScaling.build_graph data) = G /\
  has_edge G (Edge.v e) (Edge.u e) = true /\
  (exists c, declared data (Edge.u e) (Edge.v e) = Some c /\
             get G (Edge.u e) (Edge.v e) = Some (mkAttrs c 0)) /\
  (declared data (Edge.u e) (Edge.v e) = Some (Edge.capacity e) ->
   get G (Edge.u e) (Edge.v e) = Some (mkAttrs (Edge.capacity e) 0)).
Proof.
  intros Hin Hneg G. unfold G. cbn [FordFulkerson.graph FordFulkerson.build_graph].
  assert (exists c, declared data (Edge.u e) (Edge.v e) = Some c) as [c Hc].
  { destruct (declared data (Edge.u e) (Edge.v e)) eqn:E; [eauto|].
    exfalso. eapply declared_None; [exact E|exact Hin|reflexivity]. }
  split; [reflexivity|]. split.
  - unfold has_edge. rewrite build_get.
    destruct (declared data (Edge.v e) (Edge.u e)); [reflexivity|].
    rewrite Hc. reflexivity.
  - split.
    + exists c. split; [exact Hc|]. rewrite build_get, Hc. reflexivity.
    + intros H. rewrite build_get, H. reflexivity.
Qed.

Lemma negative_capacity_is_stored_witness :
  In (Edge.mk "S" "T" (-1)) [Edge.mk "S" "T" (-1)] /\ -1 < 0 /\
  get (FordFulkerson.graph (FordFulkerson.build_graph [Edge.mk "S" "T" (-1)]))
      "S" "T"
  = Some (mkAttrs (-1) 0).
Proof.
  assert (In (Edge.mk "S" "T" (-1)) [Edge.mk "S" "T" (-1)]) as H
    by (left; reflexivity).
  split; [exact H|]. split; [lia|].
  apply (proj2 (proj2 (proj2
           (negative_capacity_is_stored [Edge.mk "S" "T" (-1)] _ H ltac:(simpl; lia))))).
  reflexivity.
Defined.

(** ** Where the steppers stop *)

Lemma plain_step_node_not_found self s t :
  has_node (FordFulkerson.get_residual_graph self) s = false \/
  has_node (FordFulkerson.get_residual_graph self) t = false ->
  FordFulkerson.step self s t = (Raise NodeNotFound, self).
Proof.
  intros H. unfold FordFulkerson.step, shortest_path.
  assert (negb (has_node (FordFulkerson.get_residual_graph self) s)
          || negb (has_node (FordFulkerson.get_residual_graph self) t) = true)
    as ->.
  { destruct H as [-> | ->]; simpl; auto using orb_true_r. }
  reflexivity.
Qed.

(** What a call of the plain stepper does on a graph with every key once:
    it returns a simple path of the residual graph, or it returns [None] when
    both endpoints are nodes of the residual graph and the sink cannot be
    reached, or it lets [NodeNotFound] escape when an endpoint is not a node
    of the residual graph. *)
Lemma plain_step_outcome self s t :
  wf (FordFulkerson.graph self) ->
  match fst (FordFulkerson.step self s t) with
  | Ret (Some path, _) =>
      simple_path (FordFulkerson.get_residual_graph self) s t path
  | Ret (None, _) =>
      has_node (FordFulkerson.get_residual_graph self) s = true /\
      has_node (FordFulkerson.get_residual_graph self) t = true /\
      ~ reachable (FordFulkerson.get_residual_graph self) s t
  | Raise e =>
      e = NodeNotFound /\
      (has_node (FordFulkerson.get_residual_graph self) s = false \/
       has_node (FordFulkerson.get_residual_graph self) t = false)
  end.
Proof.
  intros Hwf. unfold FordFulkerson.step, FordFulkerson.get_residual_graph.
  pose proof (shortest_path_spec
                (residual_graph (fun r => r >? 0) (FordFulkerson.graph self))
                s t (residual_wf _ _)) as Hspec.
  destruct (shortest_path _ s t) as [path|e] eqn:Hsp.
  - destruct (found_bottleneck _ gtb_pos _ _ _ _ Hwf Hsp)
      as [[_ Hinf]|(b & Hloop & _)].
    + rewrite Hinf. exact Hspec.
    + rewrite Hloop.
      destruct (found_augment _ gtb_pos _ _ _ _ Hwf Hsp b Hloop)
        as (_ & _ & Hexn & _).
      destruct (augment _ _ b) as [G' o]. simpl in Hexn. subst o. exact Hspec.
  - destruct e; simpl; tauto.
Qed.

(** C1, at the failing input: on the edge list [S -> T] of capacity 1 the
    first call augments along [S; T]; then no arc has residual capacity, the
    residual graph has no node, and the second call, like every later one,
    lets [NodeNotFound] escape and never returns [(None, 0)]. *)
Theorem saturated_source_raises :
  let self0 := FordFulkerson.build_graph [Edge.mk "S" "T" 1] in
  let self1 := snd (FordFulkerson.step self0 "S" "T") in
  fst (FordFulkerson.step self0 "S" "T") = Ret (Some ["S"; "T"], Fin 1) /\
  FordFulkerson.get_residual_graph self1 = [] /\
  forall n,
    FordFulkerson.step (Run.plain n self1 "S" "T") "S" "T"
    = (Raise NodeNotFound, self1).
Proof.
  intros self0 self1.
  split; [vm_compute; reflexivity|]. split; [vm_compute; reflexivity|].
  assert (FordFulkerson.step self1 "S" "T" = (Raise NodeNotFound, self1)) as H
    by (apply plain_step_node_not_found; left; vm_compute; reflexivity).
  intros n.
  assert (Run.plain n self1 "S" "T" = self1) as ->.
  { induction n as [|n IH]; [reflexivity|].
    change (Run.plain n (snd (FordFulkerson.step self1 "S" "T")) "S" "T"
            = self1).
    rewrite H. exact IH. }
  exact H.
Qed.

(** C2, at the failing input: on [detour_data], whose capacities are
    non-negative, both steppers reach their terminal signal, the plain one
    after pushing 3 units and the scaling one after pushing 4. *)
Theorem steppers_disagree_on_detour :
  Forall (fun e => 0 <= Edge.capacity e) detour_data /\
  Run.plain_total 10 (FordFulkerson.build_graph detour_data) "S" "T" = Some 3 /\
  Run.scaling_total 10 (CapacityScaling.build_graph detour_data) "S" "T"
  = Some 4.
Proof.
  split; [repeat constructor; simpl; lia|].
  split; vm_compute; reflexivity.
Qed.

(** ** Node names of the crew-pairing graph *)

Lemma length_append (a b : string) :
  String.length (a ++ b) = (String.length a + String.length b)%nat.
Proof. induction a as [|c a IH]; simpl; [reflexivity|]. rewrite IH. reflexivity. Qed.

Lemma append_cancel_r (s : string) : forall a b : string,
  (a ++ s)%string = (b ++ s)%string -> a = b.
Proof.
  induction a as [|c a IH]; intros [|d b] H; simpl in H.
  - reflexivity.
  - exfalso. apply (f_equal String.length) in H. simpl in H.
    rewrite length_append in H. lia.
  - exfalso. apply (f_equal String.length) in H. simpl in H.
    rewrite length_append in H. lia.
  - injection H as -> H. f_equal. apply IH. exact H.
Qed.



Lemma S_is_not_in (a : string) : "S" <> (a ++ "_in")%string.
Proof.
  intros H. apply (f_equal String.length) in H. rewrite length_append in H.
  simpl in H. lia.
Qed.

Lemma T_is_not_out (a : string) : "T" <> (a ++ "_out")%string.
Proof.
  intros H. apply (f_equal String.length) in H. rewrite length_append in H.
  simpl in H. lia.
Qed.

Lemma flight_eqb_spec (f1 f2 : Flight.t) : Flight.eqb f1 f2 = true <-> f1 = f2.
Proof.
  destruct f1 as [i1 s1 e1], f2 as [i2 s2 e2]. unfold Flight.eqb. simpl.
  rewrite !andb_true_iff, String.eqb_eq, !Z.eqb_eq. split.
  - intros [[-> ->] ->]. reflexivity.
  - intros [= -> -> ->]. auto.
Qed.

(** ** The arcs of the crew-pairing graph *)

Lemma has_edge_add_edge_iff {A : Type} (G : DiGraph A) u v a x y :
  has_edge (add_edge G u v a) x y = true <->
  (x, y) = (u, v) \/ has_edge G x y = true.
Proof.
  rewrite has_edge_add_edge, orb_true_iff, eqb_pair_true. reflexivity.
Qed.

Lemma has_edge_terminals flights : forall (G : DiGraph Z) x y,
  has_edge (fold_left add_terminals flights G) x y = true <->
  has_edge G x y = true \/ is_terminal_arc flights x y.
Proof.
  unfold is_terminal_arc.
  induction flights as [|f flights IH]; intros G x y; simpl.
  - split; [auto|intros [H|(f & [] & _)]; exact H].
  - rewrite IH. unfold add_terminals. rewrite !has_edge_add_edge_iff. split.
    + intros [[H|[H|H]]|(f' & Hin & H)]; eauto 6.
    + intros [H|(f' & [<-|Hin] & H)]; [auto|tauto|eauto].
Qed.

Lemma has_edge_compatible f1 seconds : forall (G : DiGraph Z) x y,
  has_edge (fold_left (add_compatible f1) seconds G) x y = true <->
  has_edge G x y = true \/ is_pairing_arc [f1] seconds x y.
Proof.
  unfold is_pairing_arc.
  induction seconds as [|f2 seconds IH]; intros G x y; simpl.
  - split; [auto|intros [H|(f & f' & _ & [] & _)]; exact H].
  - rewrite IH. unfold add_compatible.
    destruct (Flight.eqb f1 f2) eqn:Eeq.
    + apply flight_eqb_spec in Eeq. subst f2. split.
      * intros [H|(a & b & Ha & Hb & H)]; [auto|right].
        exists a, b. tauto.
      * intros [H|(a & b & [<-|[]] & [<-|Hb] & Hne & H)]; [auto|tauto|right].
        exists f1, b. simpl. tauto.
    + assert (f1 <> f2) as Hne.
      { intros H. apply flight_eqb_spec in H. congruence. }
      destruct (Flight.end_ f1 <=? Flight.start f2) eqn:Ele.
      * apply Z.leb_le in Ele. rewrite has_edge_add_edge_iff. split.
        -- intros [[H|H]|(a & b & Ha & Hb & H)]; [right|auto|right].
           ++ exists f1, f2. simpl. tauto.
           ++ exists a, b. tauto.
        -- intros [H|(a & b & [<-|[]] & [<-|Hb] & Hab & Hle & H)]; [auto|auto|right].
           exists f1, b. simpl. tauto.
      * apply Z.leb_gt in Ele. split.
        -- intros [H|(a & b & Ha & Hb & H)]; [auto|right]. exists a, b. tauto.
        -- intros [H|(a & b & [<-|[]] & [<-|Hb] & Hab & Hle & H)];
             [auto|lia|right].
           exists f1, b. simpl. tauto.
Qed.

Lemma has_edge_pairings seconds firsts : forall (G : DiGraph Z) x y,
  has_edge (fold_left (fun G f1 => fold_left (add_compatible f1) seconds G)
                      firsts G) x y = true <->
  has_edge G x y = true \/ is_pairing_arc firsts seconds x y.
Proof.
  induction firsts as [|f1 firsts IH]; intros G x y; simpl.
  - split; [auto|intros [H|(a & b & [] & _)]; exact H].
  - rewrite IH, has_edge_compatible. unfold is_pairing_arc. split.
    + intros [[H|(a & b & [<-|[]] & H)]|(a & b & Ha & H)]; [auto|right|right].
      * exists f1, b. simpl. tauto.
      * exists a, b. simpl. tauto.
    + intros [H|(a & b & [<-|Ha] & H)]; [auto|left; right|right].
      * exists f1, b. simpl. tauto.
      * exists a, b. tauto.
Qed.

Lemma airline_arcs flights x y :
  has_edge (airline_graph flights) x y = true <->
  is_terminal_arc flights x y \/ is_pairing_arc flights flights x y.
Proof.
  unfold airline_graph. rewrite has_edge_pairings, has_edge_terminals.
  unfold has_edge at 1. simpl. intuition discriminate.
Qed.

Lemma unit_capacity_add_edge (G : DiGraph Z) u v :
  (forall x y c, get G x y = Some c -> c = 1) ->
  forall x y c, get (add_edge G u v 1) x y = Some c -> c = 1.
Proof.
  intros H x y c Hc. apply get_add_edge_inv in Hc.
  destruct Hc as [->|Hc]; [reflexivity|eauto].
Qed.

Lemma airline_unit_capacity flights x y c :
  get (airline_graph flights) x y = Some c -> c = 1.
Proof.
  unfold airline_graph. revert x y c.
  assert (forall seconds firsts (G : DiGraph Z),
            (forall x y c, get G x y = Some c -> c = 1) ->
            forall x y c,
              get (fold_left
                     (fun G f1 => fold_left (add_compatible f1) seconds G)
                     firsts G) x y = Some c -> c = 1) as Houter.
  { intros seconds. induction firsts as [|f1 firsts IH]; intros G HG; simpl;
      [exact HG|].
    apply IH. clear IH. revert G HG.
    induction seconds as [|f2 seconds IH2]; intros G HG; simpl; [exact HG|].
    apply IH2. unfold add_compatible.
    destruct (Flight.eqb f1 f2); [exact HG|].
    destruct (_ <=? _); [apply unit_capacity_add_edge|]; exact HG. }
  apply Houter.
  assert (forall fl (G : DiGraph Z),
            (forall x y c, get G x y = Some c -> c = 1) ->
            forall x y c, get (fold_left add_terminals fl G) x y = Some c -> c = 1)
    as Hterm.
  { induction fl as [|f fl IH]; intros G HG; simpl; [exact HG|].
    apply IH. unfold add_terminals.
    apply unit_capacity_add_edge, unit_capacity_add_edge. exact HG. }
  apply Hterm. discriminate.
Qed.

(** ** The demonstration flights *)

Lemma demo_graph :
  airline_graph demo_flights
  = [("S", "A1_in", 1); ("A1_out", "T", 1); ("S", "A2_in", 1);
     ("A2_out", "T", 1); ("S", "B1_in", 1); ("B1_out", "T", 1);
     ("A1_in", "A2_out", 1)].
Proof. reflexivity. Qed.

Lemma demo_flow_feasible : feasible (airline_graph demo_flights) "S" "T" demo_flow.
Proof.
  rewrite demo_graph. split.
  - intros u v c Hin. simpl in Hin.
    repeat (destruct Hin as [[= <- <- <-]|Hin]; [vm_compute; split; discriminate|]).
    destruct Hin.
  - intros n HS HT. unfold entering, leaving. cbn [filter map fst snd].
    repeat match goal with
           | |- context [(?c =? n)%string] =>
               destruct (String.eqb_spec c n) as [<-|?];
               [try congruence; vm_compute; reflexivity|]
           end.
    reflexivity.
Qed.

Lemma demo_flow_bound f :
  feasible (airline_graph demo_flights) "S" "T" f ->
  flow_value (airline_graph demo_flights) "S" f <= 1.
Proof.
  rewrite demo_graph. intros [Hcap Hcons].
  assert (f "A1_in" "A2_out" <= 1) as Hpair
    by (apply (Hcap "A1_in" "A2_out" 1); simpl; auto 8).
  pose proof (Hcons "A1_in" ltac:(discriminate) ltac:(discriminate)) as H1.
  pose proof (Hcons "A2_in" ltac:(discriminate) ltac:(discriminate)) as H2.
  pose proof (Hcons "B1_in" ltac:(discriminate) ltac:(discriminate)) as H3.
  unfold flow_value, entering, leaving in *. simpl in *.
  rewrite ?sumZ_cons in *. unfold sumZ in *. simpl in *. lia.
Qed.

Lemma demo_max_flow : max_flow_value (airline_graph demo_flights) "S" "T" 1.
Proof.
  split; [|exact demo_flow_bound].
  exists demo_flow. split; [exact demo_flow_feasible|reflexivity].
Qed.

Lemma demo_max_flow_unique v :
  max_flow_value (airline_graph demo_flights) "S" "T" v -> v = 1.
Proof.
  intros [(f & Hf & <-) Hmax].
  pose proof (demo_flow_bound f Hf) as Hle.
  pose proof (Hmax demo_flow demo_flow_feasible) as Hge.
  change (flow_value (airline_graph demo_flights) "S" demo_flow) with 1 in Hge.
  lia.
Qed.

(** ** The crew-pairing reduction *)

(** C10 fails as stated: a flight that ends when it starts satisfies
    [end <= start] against itself, and the graph has no arc from its [_in]
    node to its [_out] node. *)
Lemma self_pairing_counterexample :
  In instant_flight [instant_flight] /\
  Flight.end_ instant_flight <= Flight.start instant_flight /\
  has_edge (airline_graph [instant_flight])
           (Flight.id instant_flight ++ "_in")%string
           (Flight.id instant_flight ++ "_out")%string = false.
Proof.
  split; [left; reflexivity|]. split; [vm_compute; discriminate|reflexivity].
Qed.

(** C10, amended: whenever the max-flow routine returns the maximum flow
    value [v] of the constructed graph, [solve_airline] returns the number of
    flights minus [v]; every arc of the graph has capacity 1, and it has the
    arc [t1_in -> t2_out] exactly when [t1] and [t2] are two different
    entries of the list with [t1.end <= t2.start]; for the three flights of
    the demonstration the result is 2. *)
Theorem solve_airline_min_crews
    (maximum_flow : DiGraph Z -> node -> node -> res Z)
    (flights : list Flight.t) (v : Z) :
  maximum_flow (airline_graph flights) "S" "T" = Ret v ->
  max_flow_value (airline_graph flights) "S" "T" v ->
  solve_airline maximum_flow flights
  = Ret (Z.of_nat (List.length flights) - v,
         ("Flights: " ++ str (Z.of_nat (List.length flights))
          ++ ", Compatible Pairs Matched: " ++ str v)%string) /\
  (forall x y c, get (airline_graph flights) x y = Some c -> c = 1) /\
  (forall a b,
     has_edge (airline_graph flights) (a ++ "_in")%string (b ++ "_out")%string
     = true <->
     exists t1 t2,
       In t1 flights /\ In t2 flights /\ t1 <> t2 /\
       Flight.id t1 = a /\ Flight.id t2 = b /\
       Flight.end_ t1 <= Flight.start t2) /\
  (flights = demo_flights ->
   solve_airline maximum_flow flights
   = Ret (2, "Flights: 3, Compatible Pairs Matched: 1")).
Proof.
  intros Hret Hmax.
  assert (solve_airline maximum_flow flights
          = Ret (Z.of_nat (List.length flights) - v,
                 ("Flights: " ++ str (Z.of_nat (List.length flights))
                  ++ ", Compatible Pairs Matched: " ++ str v)%string)) as Hsolve.
  { unfold solve_airline. rewrite Hret. reflexivity. }
  split; [exact Hsolve|]. split; [apply airline_unit_capacity|]. split.
  - intros a b. rewrite airline_arcs. split.
    + intros [(f & _ & [H|H])|(t1 & t2 & H1 & H2 & Hne & Hle & H)].
      * injection H as H _. exfalso. symmetry in H. eapply S_is_not_in. exact H.
      * injection H as _ H. exfalso. symmetry in H. eapply T_is_not_out. exact H.
      * injection H as Ha Hb. apply append_cancel_r in Ha, Hb.
        exists t1, t2. auto 7.
    + intros (t1 & t2 & H1 & H2 & Hne & <- & <- & Hle). right.
      exists t1, t2. auto 7.
  - intros ->. rewrite Hsolve.
    apply demo_max_flow_unique in Hmax. subst v. reflexivity.
Qed.

Lemma solve_airline_min_crews_witness :
  Reference.maximum_flow (airline_graph demo_flights) "S" "T" = Ret 1 /\
  max_flow_value (airline_graph demo_flights) "S" "T" 1 /\
  solve_airline Reference.maximum_flow demo_flights
  = Ret (2, "Flights: 3, Compatible Pairs Matched: 1").
Proof.
  assert (Reference.maximum_flow (airline_graph demo_flights) "S" "T" = Ret 1)
    as H by (vm_compute; reflexivity).
  split; [exact H|]. split; [exact demo_max_flow|].
  exact (proj2 (proj2 (proj2
           (solve_airline_min_crews Reference.maximum_flow demo_flights 1
                                    H demo_max_flow))) eq_refl).
Defined.

(** * Further properties *)

(** ** States that the steppers reach *)

Lemma plain_reached_bounded data calls :
  bounded (FordFulkerson.graph
             (Run.plain_calls (FordFulkerson.build_graph data) calls)).
Proof. apply plain_calls_bounded, build_bounded. Qed.

Lemma scaling_reached_bounded data calls :
  bounded (CapacityScaling.graph
             (Run.scaling_calls (CapacityScaling.build_graph data) calls)).
Proof. apply scaling_calls_bounded, build_bounded. Qed.

Lemma declared_Some data u v :
  (exists c, declared data u v = Some c) <->
  exists e, In e data /\ (Edge.u e, Edge.v e) = (u, v).
Proof.
  split.
  - intros [c Hc]. destruct (declared_Some_In _ _ _ _ Hc) as (e & Hin & <- & <- & _).
    exists e. auto.
  - intros (e & Hin & He). destruct (declared data u v) as [c|] eqn:E; [eauto|].
    exfalso. eapply declared_None; eauto.
Qed.

(** X1: [build_graph] of either class resets the running total, gives every
    arc flow 0, keeps one arc per ordered pair of nodes however often it is
    declared, and creates an arc [u -> v] exactly when the edge list declares
    [u -> v] or [v -> u]. *)
Theorem build_graph_arcs (data : list Edge.t) :
  let G := FordFulkerson.graph (FordFulkerson.build_graph data) in
  CapacityScaling.graph (CapacityScaling.build_graph data) = G /\
  FordFulkerson.flow_val (FordFulkerson.build_graph data) = Fin 0 /\
  NoDup (keys G) /\
  Forall (fun e => flow (snd e) = 0) G /\
  forall u v,
    has_edge G u v = true <->
    exists e, In e data /\
              ((Edge.u e, Edge.v e) = (u, v) \/ (Edge.u e, Edge.v e) = (v, u)).
Proof.
  intros G. unfold G. cbn [FordFulkerson.graph FordFulkerson.build_graph
                             FordFulkerson.flow_val].
  split; [reflexivity|]. split; [reflexivity|].
  split; [apply build_wf, wf_nil|].
  split; [apply Forall_forall; intros e; apply build_zero_flow|].
  intros u v. unfold has_edge. rewrite build_get. split.
  - destruct (declared data u v) as [c|] eqn:Euv.
    + intros _. destruct (proj1 (declared_Some data u v)) as (e & Hin & He);
        [eauto|]. exists e. auto.
    + destruct (declared data v u) as [c|] eqn:Evu; [|discriminate].
      intros _. destruct (proj1 (declared_Some data v u)) as (e & Hin & He);
        [eauto|]. exists e. auto.
  - intros (e & Hin & [He|He]).
    + destruct (proj2 (declared_Some data u v)) as [c ->]; [eauto|reflexivity].
    + destruct (proj2 (declared_Some data v u)) as [c ->]; [eauto|].
      destruct (declared data u v); reflexivity.
Qed.

(** ** The residual graphs *)



(** ** Capacities and arcs under [step] *)

Lemma capacities_alter (f : attrs -> attrs) (G : DiGraph attrs) u v :
  (forall d, capacity (f d) = capacity d) ->
  capacities (alter f G u v) = capacities G.
Proof.
  intros Hf. unfold capacities. induction G as [|e G IH]; simpl; [reflexivity|].
  destruct (arc_is u v e); simpl; [rewrite Hf; reflexivity|].
  rewrite IH. reflexivity.
Qed.

Lemma capacities_augment b hs : forall G : DiGraph attrs,
  capacities (fst (augment G hs b)) = capacities G.
Proof.
  induction hs as [|[u v] hs IH]; intros G; simpl; [reflexivity|].
  destruct (pushes_forward G u v b).
  - rewrite IH. apply capacities_alter. reflexivity.
  - destruct (get G v u); [|reflexivity].
    rewrite IH. apply capacities_alter. reflexivity.
Qed.

Lemma plain_step_capacities self s t :
  capacities (FordFulkerson.graph (snd (FordFulkerson.step self s t)))
  = capacities (FordFulkerson.graph self).
Proof.
  unfold FordFulkerson.step.
  destruct (shortest_path _ s t) as [path|e].
  - destruct (bottleneck_loop _ _ Inf) as [[b|]|e]; try reflexivity.
    pose proof (capacities_augment b (hops path) (FordFulkerson.graph self)) as H.
    destruct (augment _ _ b) as [G' [e|]]; exact H.
  - destruct e; reflexivity.
Qed.

Lemma scaling_step_capacities self s t :
  capacities (CapacityScaling.graph (snd (CapacityScaling.step self s t)))
  = capacities (CapacityScaling.graph self).
Proof.
  unfold CapacityScaling.step.
  destruct (CapacityScaling.delta self <? 1); [reflexivity|].
  destruct (shortest_path _ s t) as [path|e].
  - destruct (bottleneck_loop _ _ Inf) as [[b|]|e]; try reflexivity.
    pose proof (capacities_augment b (hops path) (CapacityScaling.graph self)) as H.
    destruct (augment _ _ b) as [G' [e|]]; exact H.
  - destruct e; reflexivity.
Qed.

(** X3: no call of [step], of either stepper and with any endpoints, adds or
    removes an arc, reorders the arcs or changes a capacity: after any
    sequence of calls the arcs and their capacities are those that
    [build_graph] set. *)
Theorem step_keeps_capacities (data : list Edge.t) (calls : list (node * node)) :
  capacities (FordFulkerson.graph
                (Run.plain_calls (FordFulkerson.build_graph data) calls))
  = capacities (FordFulkerson.graph (FordFulkerson.build_graph data)) /\
  capacities (CapacityScaling.graph
                (Run.scaling_calls (CapacityScaling.build_graph data) calls))
  = capacities (CapacityScaling.graph (CapacityScaling.build_graph data)).
Proof.
  split.
  - generalize (FordFulkerson.build_graph data) as self.
    unfold Run.plain_calls. induction calls as [|c calls IH]; intros self;
      simpl; [reflexivity|].
    rewrite IH. apply plain_step_capacities.
  - generalize (CapacityScaling.build_graph data) as self.
    unfold Run.scaling_calls. induction calls as [|c calls IH]; intros self;
      simpl; [reflexivity|].
    rewrite IH. apply scaling_step_capacities.
Qed.

(** ** One call of [step], case by case *)

Lemma plain_step_cases self s t :
  wf (FordFulkerson.graph self) ->
  let R := FordFulkerson.get_residual_graph self in
  (shortest_path R s t = Raise NodeNotFound /\
   FordFulkerson.step self s t = (Raise NodeNotFound, self)) \/
  (shortest_path R s t = Raise NetworkXNoPath /\
   FordFulkerson.step self s t = (Ret (None, Fin 0), self)) \/
  (exists path,
     shortest_path R s t = Ret path /\ hops path = [] /\
     FordFulkerson.step self s t
     = (Ret (Some path, Inf),
        FordFulkerson.mk (FordFulkerson.graph self)
                         (num_add (FordFulkerson.flow_val self) Inf))) \/
  (exists path b,
     shortest_path R s t = Ret path /\
     bottleneck_loop R (hops path) Inf = Ret (Fin b) /\
     FordFulkerson.step self s t
     = (Ret (Some path, Fin b),
        FordFulkerson.mk
          (fst (augment (FordFulkerson.graph self) (hops path) b))
          (num_add (FordFulkerson.flow_val self) (Fin b)))).
Proof.
  intros Hwf R. unfold R, FordFulkerson.step, FordFulkerson.get_residual_graph.
  destruct (shortest_path _ s t) as [path|e] eqn:Hsp.
  - right. right.
    destruct (found_bottleneck _ gtb_pos _ _ _ _ Hwf Hsp)
      as [[Hnil Hinf]|(b & Hloop & _)].
    + left. exists path. rewrite Hinf. auto.
    + right. exists path, b. rewrite Hloop.
      destruct (found_augment _ gtb_pos _ _ _ _ Hwf Hsp b Hloop)
        as (_ & _ & Hexn & _).
      destruct (augment _ _ b) as [G' o]. simpl in Hexn. subst o. auto.
  - destruct (shortest_path_raises _ _ _ _ Hsp) as [-> | ->]; auto.
Qed.

Lemma scaling_step_cases self s t :
  wf (CapacityScaling.graph self) -> 1 <= CapacityScaling.delta self ->
  let R := CapacityScaling.delta_residual_graph self in
  (shortest_path R s t = Raise NodeNotFound /\
   CapacityScaling.step self s t = (Raise NodeNotFound, self)) \/
  (shortest_path R s t = Raise NetworkXNoPath /\
   CapacityScaling.step self s t
   = (Ret (Some [], Fin 0,
           ("No path at Delta=" ++ str (CapacityScaling.delta self)
            ++ ". Reducing Delta to "
            ++ str (CapacityScaling.delta self / 2))%string),
      CapacityScaling.mk (CapacityScaling.graph self)
                         (CapacityScaling.delta self / 2))) \/
  (exists path,
     shortest_path R s t = Ret path /\ hops path = [] /\
     CapacityScaling.step self s t
     = (Ret (Some path, Inf,
             ("Augmented at Delta=" ++ str (CapacityScaling.delta self))%string),
        self)) \/
  (exists path b,
     shortest_path R s t = Ret path /\
     bottleneck_loop R (hops path) Inf = Ret (Fin b) /\
     CapacityScaling.step self s t
     = (Ret (Some path, Fin b,
             ("Augmented at Delta=" ++ str (CapacityScaling.delta self))%string),
        CapacityScaling.mk
          (fst (augment (CapacityScaling.graph self) (hops path) b))
          (CapacityScaling.delta self))).
Proof.
  intros Hwf Hdelta R.
  unfold R, CapacityScaling.step, CapacityScaling.delta_residual_graph.
  assert ((CapacityScaling.delta self <? 1) = false) as Hd
    by (apply Z.ltb_ge; lia).
  rewrite Hd.
  assert (forall r, (r >=? CapacityScaling.delta self) = true -> 0 < r)
    as Hpos by (intros r; apply geb_delta_pos; exact Hd).
  destruct (shortest_path _ s t) as [path|e] eqn:Hsp.
  - right. right.
    destruct (found_bottleneck _ Hpos _ _ _ _ Hwf Hsp)
      as [[Hnil Hinf]|(b & Hloop & _)].
    + left. exists path. rewrite Hinf. auto.
    + right. exists path, b. rewrite Hloop.
      destruct (found_augment _ Hpos _ _ _ _ Hwf Hsp b Hloop)
        as (_ & _ & Hexn & _).
      destruct (augment _ _ b) as [G' o]. simpl in Hexn. subst o. auto.
  - destruct (shortest_path_raises _ _ _ _ Hsp) as [-> | ->]; auto.
Qed.

Lemma shortest_path_Ret_nodes {A : Type} (G : DiGraph A) s t p :
  shortest_path G s t = Ret p -> has_node G s = true /\ has_node G t = true.
Proof.
  unfold shortest_path.
  destruct (has_node G s); [|discriminate].
  destruct (has_node G t); [auto|discriminate].
Qed.

Lemma hops_nil_single (p : list node) x :
  hd_error p = Some x -> hops p = [] -> p = [x].
Proof.
  destruct p as [|y [|z p]]; simpl; try discriminate.
  intros [= ->] _. reflexivity.
Qed.





(** X5: in a state that the plain stepper reaches, [step] lets
    [NodeNotFound] escape exactly when the source or the sink is not a node
    of the residual graph, returns [(None, 0)] exactly when both are nodes of
    it and no walk leads from the source to the sink, and returns a path
    exactly when both are nodes of it and such a walk exists; it raises
    nothing else, and only a call that returns a path changes the object. *)
Theorem plain_step_outcomes (data : list Edge.t) (calls : list (node * node))
    (s t : node) :
  let self := Run.plain_calls (FordFulkerson.build_graph data) calls in
  let R := FordFulkerson.get_residual_graph self in
  (forall e, fst (FordFulkerson.step self s t) = Raise e -> e = NodeNotFound) /\
  (fst (FordFulkerson.step self s t) = Raise NodeNotFound <->
   has_node R s = false \/ has_node R t = false) /\
  (fst (FordFulkerson.step self s t) = Ret (None, Fin 0) <->
   has_node R s = true /\ has_node R t = true /\ ~ reachable R s t) /\
  ((exists path b, fst (FordFulkerson.step self s t) = Ret (Some path, b)) <->
   has_node R s = true /\ has_node R t = true /\ reachable R s t) /\
  ((forall path b, fst (FordFulkerson.step self s t) <> Ret (Some path, b)) ->
   snd (FordFulkerson.step self s t) = self).
Proof.
  intros self R.
  destruct (plain_reached_bounded data calls) as [Hwf _]. fold self in Hwf.
  pose proof (shortest_path_spec R s t (residual_wf _ _)) as Hspec.
  assert (forall p, shortest_path R s t = Ret p ->
            has_node R s = true /\ has_node R t = true /\ reachable R s t)
    as Hfound.
  { intros p Hp. destruct (shortest_path_Ret_nodes _ _ _ _ Hp) as [Hs Ht].
    apply shortest_path_sound, simple_path_reachable in Hp. auto. }
  destruct (plain_step_cases self s t Hwf)
    as [[Hsp ->]|[[Hsp ->]|[(p & Hsp & _ & ->)|(p & b & Hsp & _ & ->)]]];
    fold R in Hsp; rewrite Hsp in Hspec; cbn [fst snd].
  - split; [intros e [= <-]; reflexivity|].
    split; [split; [intros _; exact Hspec|reflexivity]|].
    split; [split; [discriminate|intros (Hs & Ht & _); destruct Hspec; congruence]|].
    split; [|reflexivity].
    split; [intros (p & b & H); discriminate|].
    intros (Hs & Ht & _). destruct Hspec; congruence.
  - destruct Hspec as (Hs & Ht & Hun).
    split; [discriminate|].
    split; [split; [discriminate|intros [H|H]; congruence]|].
    split; [split; [auto|reflexivity]|].
    split; [|reflexivity].
    split; [intros (p & b & H); discriminate|].
    intros (_ & _ & Hr). contradiction.
  - destruct (Hfound p Hsp) as (Hs & Ht & Hr).
    split; [discriminate|].
    split; [split; [discriminate|intros [H|H]; congruence]|].
    split; [split; [discriminate|intros (_ & _ & Hun); contradiction]|].
    split; [split; [auto|eauto]|].
    intros H. exfalso. eapply H. reflexivity.
  - destruct (Hfound p Hsp) as (Hs & Ht & Hr).
    split; [discriminate|].
    split; [split; [discriminate|intros [H|H]; congruence]|].
    split; [split; [discriminate|intros (_ & _ & Hun); contradiction]|].
    split; [split; [auto|eauto]|].
    intros H. exfalso. eapply H. reflexivity.
Qed.

Lemma plain_step_outcomes_witness :
  has_node (FordFulkerson.get_residual_graph
              (FordFulkerson.build_graph [Edge.mk "S" "T" 0])) "S" = false /\
  fst (FordFulkerson.step (FordFulkerson.build_graph [Edge.mk "S" "T" 0])
                          "S" "T")
  = Raise NodeNotFound.
Proof.
  assert (has_node (FordFulkerson.get_residual_graph
                      (FordFulkerson.build_graph [Edge.mk "S" "T" 0])) "S"
          = false) as H by reflexivity.
  split; [exact H|].
  exact (proj2 (proj1 (proj2
           (plain_step_outcomes [Edge.mk "S" "T" 0] [] "S" "T")))
               (or_introl H)).
Defined.

(** ** The scaling stepper, call by call *)

Lemma scaling_reached_delta_cases data calls :
  let cs := Run.scaling_calls (CapacityScaling.build_graph data) calls in
  CapacityScaling.delta cs = 0 \/ power_of_two (CapacityScaling.delta cs).
Proof.
  assert (forall self,
            (CapacityScaling.delta self = 0 \/
             power_of_two (CapacityScaling.delta self)) ->
            forall s t,
              CapacityScaling.delta (snd (CapacityScaling.step self s t)) = 0 \/
              power_of_two
                (CapacityScaling.delta (snd (CapacityScaling.step self s t))))
    as Hstep.
  { intros self H s t. unfold CapacityScaling.step.
    destruct (CapacityScaling.delta self <? 1); [exact H|].
    destruct (shortest_path _ s t) as [path|e].
    - destruct (bottleneck_loop _ _ Inf) as [[b|]|e]; try exact H.
      destruct (augment _ _ b) as [G' [e|]]; exact H.
    - destruct e; try exact H. cbn [snd CapacityScaling.delta].
      destruct H as [-> | (k & Hk & ->)]; [left; reflexivity|].
      destruct (Z.eq_dec k 0) as [-> | Hne]; [left; reflexivity|].
      right. exists (k - 1). split; [lia|].
      replace k with (k - 1 + 1) at 1 by lia.
      rewrite Z.pow_add_r by lia. change (2 ^ 1) with 2.
      apply Z.div_mul. discriminate. }
  intros cs. unfold cs, Run.scaling_calls.
  assert (CapacityScaling.delta (CapacityScaling.build_graph data) = 0 \/
          power_of_two (CapacityScaling.delta (CapacityScaling.build_graph data)))
    as H0.
  { right. unfold CapacityScaling.build_graph. cbn [CapacityScaling.delta].
    apply double_up_spec; [lia| |exists 0; split; [lia|reflexivity]].
    assert (0 <= CapacityScaling.max_capacity data)
      by apply (max_capacity_spec data 0).
    rewrite Z2Nat.id; lia. }
  revert H0. generalize (CapacityScaling.build_graph data) as self.
  induction calls as [|c calls IH]; intros self H; simpl; [exact H|].
  apply IH, Hstep, H.
Qed.

Lemma scaling_step_delta_le self s t :
  0 <= CapacityScaling.delta self ->
  0 <= CapacityScaling.delta (snd (CapacityScaling.step self s t))
  <= CapacityScaling.delta self.
Proof.
  intros H0. unfold CapacityScaling.step.
  destruct (CapacityScaling.delta self <? 1); [simpl; lia|].
  destruct (shortest_path _ s t) as [path|e].
  - destruct (bottleneck_loop _ _ Inf) as [[b|]|e]; try (simpl; lia).
    destruct (augment _ _ b) as [G' [e|]]; simpl; lia.
  - destruct e; simpl; try lia.
    split; [apply Z.div_pos; lia|apply Z.div_le_upper_bound; lia].
Qed.

Lemma scaling_calls_delta_le calls : forall self,
  0 <= CapacityScaling.delta self ->
  0 <= CapacityScaling.delta (Run.scaling_calls self calls)
  <= CapacityScaling.delta self.
Proof.
  unfold Run.scaling_calls.
  induction calls as [|c calls IH]; intros self H; cbn [fold_left]; [lia|].
  pose proof (scaling_step_delta_le self (fst c) (snd c) H) as Hstep.
  specialize (IH _ (proj1 Hstep)). lia.
Qed.

Lemma power_of_two_pos d : power_of_two d -> 1 <= d.
Proof.
  intros (k & Hk & ->). pose proof (Z.pow_pos_nonneg 2 k). lia.
Qed.

(** X6: the threshold of the scaling stepper is 1 or another power of two
    right after [build_graph], for every edge list; after any sequence of
    [step] calls it is 0 or a power of two, never above its value after
    [build_graph], and no call raises it. *)
Theorem delta_stays_power_of_two (data : list Edge.t)
    (calls : list (node * node)) :
  let cs := Run.scaling_calls (CapacityScaling.build_graph data) calls in
  power_of_two (CapacityScaling.delta (CapacityScaling.build_graph data)) /\
  (CapacityScaling.delta cs = 0 \/ power_of_two (CapacityScaling.delta cs)) /\
  CapacityScaling.delta cs
  <= CapacityScaling.delta (CapacityScaling.build_graph data) /\
  forall s t,
    CapacityScaling.delta (snd (CapacityScaling.step cs s t))
    <= CapacityScaling.delta cs.
Proof.
  intros cs.
  assert (power_of_two
            (CapacityScaling.delta (CapacityScaling.build_graph data))) as H0.
  { destruct (scaling_reached_delta_cases data []) as [H|H]; [|exact H].
    exfalso. simpl in H. unfold CapacityScaling.build_graph in H.
    cbn [CapacityScaling.delta] in H.
    assert (0 <= CapacityScaling.max_capacity data)
      by apply (max_capacity_spec data 0).
    destruct (double_up_spec (CapacityScaling.max_capacity data)
                (Z.to_nat (CapacityScaling.max_capacity data)) 1)
      as ((k & Hk & Hp) & _); [lia|rewrite Z2Nat.id; lia
                               |exists 0; split; [lia|reflexivity]|].
    rewrite H in Hp. pose proof (Z.pow_pos_nonneg 2 k). lia. }
  assert (0 <= CapacityScaling.delta cs
          <= CapacityScaling.delta (CapacityScaling.build_graph data)) as Hle.
  { apply scaling_calls_delta_le. apply power_of_two_pos in H0. lia. }
  split; [exact H0|]. split; [apply scaling_reached_delta_cases|].
  split; [lia|]. intros s t. apply scaling_step_delta_le. lia.
Qed.



(** X8: in a state that the scaling stepper reaches with [delta >= 1],
    [step] lets [NodeNotFound] escape exactly when the source or the sink is
    not a node of the delta-residual graph, and then changes nothing; it
    returns the empty list with bottleneck 0 exactly when both are nodes of
    it and no walk leads from the source to the sink; it returns a non-empty
    path exactly when both are nodes of it and such a walk exists; it raises
    nothing else. *)
Theorem scaling_step_outcomes (data : list Edge.t) (calls : list (node * node))
    (s t : node) :
  let self := Run.scaling_calls (CapacityScaling.build_graph data) calls in
  let R := CapacityScaling.delta_residual_graph self in
  1 <= CapacityScaling.delta self ->
  (forall e, fst (CapacityScaling.step self s t) = Raise e ->
     e = NodeNotFound /\ snd (CapacityScaling.step self s t) = self) /\
  (fst (CapacityScaling.step self s t) = Raise NodeNotFound <->
   has_node R s = false \/ has_node R t = false) /\
  ((exists msg,
      fst (CapacityScaling.step self s t) = Ret (Some [], Fin 0, msg)) <->
   has_node R s = true /\ has_node R t = true /\ ~ reachable R s t) /\
  ((exists path b msg,
      fst (CapacityScaling.step self s t) = Ret (Some path, b, msg) /\
      path <> []) <->
   has_node R s = true /\ has_node R t = true /\ reachable R s t).
Proof.
  intros self R Hdelta.
  destruct (scaling_reached_bounded data calls) as [Hwf _]. fold self in Hwf.
  pose proof (shortest_path_spec R s t (residual_wf _ _)) as Hspec.
  assert (forall p, shortest_path R s t = Ret p ->
            p <> [] /\
            has_node R s = true /\ has_node R t = true /\ reachable R s t)
    as Hfound.
  { intros p Hp. destruct (shortest_path_Ret_nodes _ _ _ _ Hp) as [Hs Ht].
    apply shortest_path_sound in Hp. split.
    - destruct Hp as (Hhd & _). intros ->. discriminate.
    - apply simple_path_reachable in Hp. auto. }
  destruct (scaling_step_cases self s t Hwf Hdelta)
    as [[Hsp ->]|[[Hsp ->]|[(p & Hsp & _ & ->)|(p & b & Hsp & _ & ->)]]];
    fold R in Hsp; rewrite Hsp in Hspec; cbn [fst snd].
  - split; [intros e [= <-]; auto|].
    split; [split; [intros _; exact Hspec|reflexivity]|].
    split.
    + split; [intros (msg & H); discriminate|].
      intros (Hs & Ht & _). destruct Hspec; congruence.
    + split; [intros (p & b & msg & H & _); discriminate|].
      intros (Hs & Ht & _). destruct Hspec; congruence.
  - destruct Hspec as (Hs & Ht & Hun).
    split; [discriminate|].
    split; [split; [discriminate|intros [H|H]; congruence]|].
    split; [split; [auto|eauto]|].
    split; [|intros (_ & _ & Hr); contradiction].
    intros (p & b & msg & H & Hne). inversion H; subst; contradiction.
  - destruct (Hfound p Hsp) as (Hne & Hs & Ht & Hr).
    split; [discriminate|].
    split; [split; [discriminate|intros [H|H]; congruence]|].
    split; [split; [|intros (_ & _ & Hun); contradiction]|].
    + intros (msg & H). inversion H; subst; contradiction.
    + split; [auto|]. intros _. eauto 6.
  - destruct (Hfound p Hsp) as (Hne & Hs & Ht & Hr).
    split; [discriminate|].
    split; [split; [discriminate|intros [H|H]; congruence]|].
    split; [split; [|intros (_ & _ & Hun); contradiction]|].
    + intros (msg & H). inversion H; subst; contradiction.
    + split; [auto|]. intros _. eauto 6.
Qed.

Lemma scaling_step_outcomes_witness :
  1 <= CapacityScaling.delta
         (Run.scaling_calls (CapacityScaling.build_graph rail_data)
            [("S", "T"); ("S", "T"); ("S", "T"); ("S", "T")]) /\
  has_node (CapacityScaling.delta_residual_graph
              (Run.scaling_calls (CapacityScaling.build_graph rail_data)
                 [("S", "T"); ("S", "T"); ("S", "T"); ("S", "T")])) "S"
  = false /\
  fst (CapacityScaling.step
         (Run.scaling_calls (CapacityScaling.build_graph rail_data)
            [("S", "T"); ("S", "T"); ("S", "T"); ("S", "T")]) "S" "T")
  = Raise NodeNotFound.
Proof.
  assert (1 <= CapacityScaling.delta
                 (Run.scaling_calls (CapacityScaling.build_graph rail_data)
                    [("S", "T"); ("S", "T"); ("S", "T"); ("S", "T")])) as Hd
    by (vm_compute; discriminate).
  assert (has_node (CapacityScaling.delta_residual_graph
                      (Run.scaling_calls (CapacityScaling.build_graph rail_data)
                         [("S", "T"); ("S", "T"); ("S", "T"); ("S", "T")])) "S"
          = false) as Hs by (vm_compute; reflexivity).
  split; [exact Hd|]. split; [exact Hs|].
  exact (proj2 (proj1 (proj2
           (scaling_step_outcomes rail_data _ "S" "T" Hd))) (or_introl Hs)).
Defined.

(** X9: a state in which [step] raises is a dead end for the caller.  In a
    state that a stepper reaches, if a call lets [NodeNotFound] escape, the
    object is unchanged and every later call with the same endpoints raises
    it again; for the scaling stepper [delta] stays at its value, at least 1,
    so no later call returns "Algorithm Complete". *)
Theorem raise_repeats (data : list Edge.t) (calls : list (node * node))
    (s t : node) :
  let ff := Run.plain_calls (FordFulkerson.build_graph data) calls in
  let cs := Run.scaling_calls (CapacityScaling.build_graph data) calls in
  (fst (FordFulkerson.step ff s t) = Raise NodeNotFound ->
   forall n,
     Run.plain n ff s t = ff /\
     FordFulkerson.step (Run.plain n ff s t) s t = (Raise NodeNotFound, ff)) /\
  (fst (CapacityScaling.step cs s t) = Raise NodeNotFound ->
   1 <= CapacityScaling.delta cs /\
   forall n,
     Run.scaling n cs s t = cs /\
     CapacityScaling.step (Run.scaling n cs s t) s t = (Raise NodeNotFound, cs)).
Proof.
  intros ff cs. split.
  - intros Hraise.
    destruct (plain_reached_bounded data calls) as [Hwf _]. fold ff in Hwf.
    assert (FordFulkerson.step ff s t = (Raise NodeNotFound, ff)) as Hstep.
    { destruct (plain_step_cases ff s t Hwf)
        as [[_ H]|[[_ H]|[(p & _ & _ & H)|(p & b & _ & _ & H)]]];
        rewrite H in Hraise |- *; cbn [fst] in Hraise;
        [reflexivity|discriminate..]. }
    intros n.
    assert (Run.plain n ff s t = ff) as ->.
    { induction n as [|n IH]; [reflexivity|].
      change (Run.plain n (snd (FordFulkerson.step ff s t)) s t = ff).
      rewrite Hstep. exact IH. }
    auto.
  - intros Hraise.
    destruct (scaling_reached_bounded data calls) as [Hwf _]. fold cs in Hwf.
    assert (1 <= CapacityScaling.delta cs) as Hdelta.
    { destruct (Z.ltb_spec (CapacityScaling.delta cs) 1) as [Hlt|Hge];
        [|exact Hge].
      unfold CapacityScaling.step in Hraise.
      assert ((CapacityScaling.delta cs <? 1) = true) as Hb
        by (apply Z.ltb_lt; exact Hlt).
      rewrite Hb in Hraise. discriminate. }
    split; [exact Hdelta|].
    assert (CapacityScaling.step cs s t = (Raise NodeNotFound, cs)) as Hstep.
    { destruct (scaling_step_cases cs s t Hwf Hdelta)
        as [[_ H]|[[_ H]|[(p & _ & _ & H)|(p & b & _ & _ & H)]]];
        rewrite H in Hraise |- *; cbn [fst] in Hraise;
        [reflexivity|discriminate..]. }
    intros n.
    assert (Run.scaling n cs s t = cs) as ->.
    { induction n as [|n IH]; [reflexivity|].
      change (Run.scaling n (snd (CapacityScaling.step cs s t)) s t = cs).
      rewrite Hstep. exact IH. }
    auto.
Qed.

Lemma raise_repeats_witness :
  fst (CapacityScaling.step
         (Run.scaling_calls (CapacityScaling.build_graph rail_data)
            [("S", "T"); ("S", "T"); ("S", "T"); ("S", "T")]) "S" "T")
  = Raise NodeNotFound /\
  fst (FordFulkerson.step
         (Run.plain_calls (FordFulkerson.build_graph [Edge.mk "S" "T" 1])
            [("S", "T")]) "S" "T")
  = Raise NodeNotFound /\
  Run.scaling 7
    (Run.scaling_calls (CapacityScaling.build_graph rail_data)
       [("S", "T"); ("S", "T"); ("S", "T"); ("S", "T")]) "S" "T"
  = Run.scaling_calls (CapacityScaling.build_graph rail_data)
      [("S", "T"); ("S", "T"); ("S", "T"); ("S", "T")] /\
  Run.plain 7
    (Run.plain_calls (FordFulkerson.build_graph [Edge.mk "S" "T" 1])
       [("S", "T")]) "S" "T"
  = Run.plain_calls (FordFulkerson.build_graph [Edge.mk "S" "T" 1])
      [("S", "T")].
Proof.
  assert (fst (CapacityScaling.step
                 (Run.scaling_calls (CapacityScaling.build_graph rail_data)
                    [("S", "T"); ("S", "T"); ("S", "T"); ("S", "T")]) "S" "T")
          = Raise NodeNotFound) as Hs by (vm_compute; reflexivity).
  assert (fst (FordFulkerson.step
                 (Run.plain_calls (FordFulkerson.build_graph [Edge.mk "S" "T" 1])
                    [("S", "T")]) "S" "T")
          = Raise NodeNotFound) as Hp by (vm_compute; reflexivity).
  split; [exact Hs|]. split; [exact Hp|]. split.
  - exact (proj1 (proj2 (proj2 (raise_repeats rail_data _ "S" "T") Hs) 7%nat)).
  - exact (proj1 (proj1 (raise_repeats [Edge.mk "S" "T" 1] _ "S" "T") Hp 7%nat)).
Defined.

(** ** Conservation and the size of the flow *)

Lemma found_conserved keep (G : DiGraph attrs) s t path b f :
  (forall r, keep r = true -> 0 < r) -> wf G -> s <> t ->
  shortest_path (residual_graph keep G) s t = Ret path ->
  bottleneck_loop (residual_graph keep G) (hops path) Inf = Ret (Fin b) ->
  conserved G s t f ->
  conserved (fst (augment G (hops path) b)) s t (f + b).
Proof.
  intros Hpos Hwf Hne Hsp Hloop (Hmid & Hs & Ht).
  pose proof (found_simple keep G s t path Hsp) as (Hhd & Hlast & Hnd & _).
  destruct (path_ends s t path Hne Hhd Hlast) as [mid ->].
  destruct (found_augment keep Hpos G s t _ Hwf Hsp b Hloop)
    as (_ & _ & _ & _ & _ & Hroom).
  assert (forall n,
            outflow (fst (augment G (hops (s :: mid ++ [t])) b)) n
            - inflow (fst (augment G (hops (s :: mid ++ [t])) b)) n
            = outflow G n - inflow G n
              + b * ((if (s =? n)%string then 1 else 0)
                     - (if (t =? n)%string then 1 else 0))) as Hnet.
  { intros n.
    destruct (augment_flows b _ _ (NoDup_hops _ Hnd) Hroom n) as [-> ->].
    rewrite hops_fst, hops_snd, <- (path_net s t mid n). lia. }
  repeat split.
  - intros n Hns Hnt. specialize (Hnet n). specialize (Hmid n Hns Hnt).
    assert ((s =? n)%string = false) as Es by (apply String.eqb_neq; congruence).
    assert ((t =? n)%string = false) as Et by (apply String.eqb_neq; congruence).
    rewrite Es, Et in Hnet. lia.
  - specialize (Hnet s). rewrite String.eqb_refl in Hnet.
    assert ((t =? s)%string = false) as Et by (apply String.eqb_neq; congruence).
    rewrite Et in Hnet. lia.
  - specialize (Hnet t). rewrite String.eqb_refl in Hnet.
    assert ((s =? t)%string = false) as Es by (apply String.eqb_neq; congruence).
    rewrite Es in Hnet. lia.
Qed.

Lemma scaling_run_conserved s t n : forall self f,
  s <> t -> bounded (CapacityScaling.graph self) ->
  conserved (CapacityScaling.graph self) s t f ->
  0 <= scaling_pushed n self s t /\
  conserved (CapacityScaling.graph (Run.scaling n self s t)) s t
            (f + scaling_pushed n self s t).
Proof.
  induction n as [|n IH]; intros self f Hne Hb Hc.
  - simpl. rewrite Z.add_0_r. split; [lia|exact Hc].
  - cbn [scaling_pushed Run.scaling].
    pose proof (proj1 (scaling_step_bounded self s t Hb)) as Hb'.
    assert (exists b,
              0 <= b /\
              (match fst (CapacityScaling.step self s t) with
               | Ret (_, Fin b0, _) => b0
               | _ => 0
               end) = b /\
              conserved
                (CapacityScaling.graph (snd (CapacityScaling.step self s t)))
                s t (f + b)) as (b & Hb0 & -> & Hc').
    { destruct (Z.ltb_spec (CapacityScaling.delta self) 1) as [Hlt|Hge].
      - exists 0. unfold CapacityScaling.step.
        assert ((CapacityScaling.delta self <? 1) = true) as ->
          by (apply Z.ltb_lt; exact Hlt).
        cbn [fst snd]. rewrite Z.add_0_r. auto with zarith.
      - assert ((CapacityScaling.delta self <? 1) = false) as Hd
          by (apply Z.ltb_ge; exact Hge).
        assert (forall r, (r >=? CapacityScaling.delta self) = true -> 0 < r)
          as Hpos by (intros r; apply geb_delta_pos; exact Hd).
        destruct (scaling_step_cases self s t (proj1 Hb) Hge)
          as [[_ ->]|[[_ ->]|[(p & _ & _ & ->)|(p & b & Hsp & Hloop & ->)]]];
          cbn [fst snd CapacityScaling.graph].
        + exists 0. rewrite Z.add_0_r. auto with zarith.
        + exists 0. rewrite Z.add_0_r. auto with zarith.
        + exists 0. rewrite Z.add_0_r. auto with zarith.
        + exists b.
          destruct (found_augment _ Hpos _ _ _ _ (proj1 Hb) Hsp b Hloop)
            as (Hbpos & _).
          split; [lia|]. split; [reflexivity|].
          exact (found_conserved _ _ s t p b f Hpos (proj1 Hb) Hne Hsp Hloop Hc). }
    destruct (IH _ (f + b) Hne Hb' Hc') as [Hp Hc''].
    split; [lia|]. rewrite Z.add_assoc. exact Hc''.
Qed.

(** X10: the scaling stepper conserves flow.  After any number of [step]
    calls with the same, distinct source and sink on a graph from
    [build_graph], the flow entering any other node equals the flow leaving
    it, and the net flow leaving the source and the net flow entering the
    sink both equal the sum of the bottlenecks that the calls returned. *)
Theorem scaling_stepper_conserves_flow (data : list Edge.t) (s t : node)
    (n : nat) :
  s <> t ->
  let self := Run.scaling n (CapacityScaling.build_graph data) s t in
  let f := scaling_pushed n (CapacityScaling.build_graph data) s t in
  0 <= f /\
  (forall m, m <> s -> m <> t ->
     inflow (CapacityScaling.graph self) m
     = outflow (CapacityScaling.graph self) m) /\
  outflow (CapacityScaling.graph self) s - inflow (CapacityScaling.graph self) s
  = f /\
  inflow (CapacityScaling.graph self) t - outflow (CapacityScaling.graph self) t
  = f.
Proof.
  intros Hne self f.
  destruct (scaling_run_conserved s t n (CapacityScaling.build_graph data) 0 Hne)
    as [Hpos Hc].
  - apply build_bounded.
  - destruct (build_conserved data s t) as (_ & f0 & Hf0 & Hc0).
    cbn [FordFulkerson.build_graph FordFulkerson.flow_val] in Hf0.
    injection Hf0 as <-. exact Hc0.
  - split; [exact Hpos|exact Hc].
Qed.

Lemma scaling_stepper_conserves_flow_witness :
  "S" <> "T" /\
  outflow (CapacityScaling.graph
             (Run.scaling 4 (CapacityScaling.build_graph rail_data) "S" "T")) "S"
  - inflow (CapacityScaling.graph
              (Run.scaling 4 (CapacityScaling.build_graph rail_data) "S" "T")) "S"
  = scaling_pushed 4 (CapacityScaling.build_graph rail_data) "S" "T".
Proof.
  assert ("S" <> "T") as H by discriminate.
  split; [exact H|].
  exact (proj1 (proj2 (proj2
           (scaling_stepper_conserves_flow rail_data "S" "T" 4 H)))).
Defined.








(** ** Equal endpoints *)

(** X12: [step] with the sink equal to the source.  If that node is a node
    of the residual graph, the plain stepper returns the one-node path with
    bottleneck [float('inf')], changes no flow and turns the running total
    into [float('inf')], where every later addition leaves it; the scaling
    stepper with [delta >= 1] returns the one-node path with bottleneck
    [float('inf')] and the "Augmented" message and changes nothing.  If it is
    not a node of the residual graph, [NodeNotFound] escapes. *)
Theorem step_with_equal_endpoints :
  (forall (self : FordFulkerson.t) (s : node),
     has_node (FordFulkerson.get_residual_graph self) s = true ->
     FordFulkerson.step self s s
     = (Ret (Some [s], Inf), FordFulkerson.mk (FordFulkerson.graph self) Inf) /\
     forall b, num_add Inf b = Inf) /\
  (forall (self : CapacityScaling.t) (s : node),
     1 <= CapacityScaling.delta self ->
     has_node (CapacityScaling.delta_residual_graph self) s = true ->
     CapacityScaling.step self s s
     = (Ret (Some [s], Inf,
             ("Augmented at Delta=" ++ str (CapacityScaling.delta self))%string),
        self)) /\
  (forall (self : FordFulkerson.t) (s : node),
     has_node (FordFulkerson.get_residual_graph self) s = false ->
     FordFulkerson.step self s s = (Raise NodeNotFound, self)).
Proof.
  assert (forall (R : DiGraph Z) s,
            has_node R s = true -> shortest_path R s s = Ret [s]) as Hsp.
  { intros R s H. unfold shortest_path. rewrite H. cbn [negb orb bfs].
    rewrite String.eqb_refl. reflexivity. }
  split; [|split].
  - intros self s H. split; [|reflexivity].
    unfold FordFulkerson.step. rewrite (Hsp _ _ H). cbn [hops bottleneck_loop].
    destruct (FordFulkerson.flow_val self); reflexivity.
  - intros self s Hd H. unfold CapacityScaling.step.
    assert ((CapacityScaling.delta self <? 1) = false) as ->
      by (apply Z.ltb_ge; exact Hd).
    rewrite (Hsp _ _ H). reflexivity.
  - intros self s H. apply plain_step_node_not_found. left. exact H.
Qed.

Lemma step_with_equal_endpoints_witness :
  has_node (FordFulkerson.get_residual_graph
              (FordFulkerson.build_graph rail_data)) "A" = true /\
  FordFulkerson.flow_val
    (snd (FordFulkerson.step (FordFulkerson.build_graph rail_data) "A" "A"))
  = Inf /\
  1 <= CapacityScaling.delta (CapacityScaling.build_graph rail_data) /\
  has_node (CapacityScaling.delta_residual_graph
              (CapacityScaling.build_graph rail_data)) "A" = true /\
  snd (CapacityScaling.step (CapacityScaling.build_graph rail_data) "A" "A")
  = CapacityScaling.build_graph rail_data /\
  has_node (FordFulkerson.get_residual_graph
              (FordFulkerson.build_graph [Edge.mk "S" "T" 0])) "S" = false /\
  fst (FordFulkerson.step (FordFulkerson.build_graph [Edge.mk "S" "T" 0])
                          "S" "S") = Raise NodeNotFound.
Proof.
  assert (has_node (FordFulkerson.get_residual_graph
                      (FordFulkerson.build_graph rail_data)) "A" = true) as H1
    by reflexivity.
  assert (1 <= CapacityScaling.delta (CapacityScaling.build_graph rail_data))
    as H2 by (vm_compute; discriminate).
  assert (has_node (CapacityScaling.delta_residual_graph
                      (CapacityScaling.build_graph rail_data)) "A" = true) as H3
    by reflexivity.
  assert (has_node (FordFulkerson.get_residual_graph
                      (FordFulkerson.build_graph [Edge.mk "S" "T" 0])) "S"
          = false) as H4 by reflexivity.
  split; [exact H1|]. split.
  - rewrite (proj1 (proj1 step_with_equal_endpoints _ _ H1)). reflexivity.
  - split; [exact H2|]. split; [exact H3|]. split.
    + rewrite (proj1 (proj2 step_with_equal_endpoints) _ _ H2 H3). reflexivity.
    + split; [exact H4|].
      rewrite (proj2 (proj2 step_with_equal_endpoints) _ _ H4). reflexivity.
Defined.

(** ** The size of a crew pairing *)

Lemma airline_graph_ind (P : DiGraph Z -> Prop) :
  P [] -> (forall G u v, P G -> P (add_edge G u v 1)) ->
  forall flights, P (airline_graph flights).
Proof.
  intros Hnil Hadd flights. unfold airline_graph.
  assert (forall seconds firsts G, P G ->
            P (fold_left (fun G f1 => fold_left (add_compatible f1) seconds G)
                         firsts G)) as Houter.
  { intros seconds. induction firsts as [|f1 firsts IH]; intros G HG; simpl;
      [exact HG|].
    apply IH. clear IH. revert G HG.
    induction seconds as [|f2 seconds IH2]; intros G HG; simpl; [exact HG|].
    apply IH2. unfold add_compatible.
    destruct (Flight.eqb f1 f2); [exact HG|].
    destruct (_ <=? _); [apply Hadd|]; exact HG. }
  apply Houter. generalize (@nil (node * node * Z)), Hnil.
  induction flights as [|f fl IH]; intros G HG; simpl; [exact HG|].
  apply IH. unfold add_terminals. apply Hadd, Hadd, HG.
Qed.

Lemma airline_wf flights : wf (airline_graph flights).
Proof.
  apply airline_graph_ind; [constructor|].
  intros G u v H. apply wf_add_edge. exact H.
Qed.

Lemma airline_arc_In flights u v c :
  In (u, v, c) (airline_graph flights) ->
  c = 1 /\
  (is_terminal_arc flights u v \/ is_pairing_arc flights flights u v).
Proof.
  intros Hin. pose proof (In_get _ _ _ _ (airline_wf flights) Hin) as Hget.
  split; [eapply airline_unit_capacity; exact Hget|].
  apply airline_arcs. unfold has_edge. rewrite Hget. reflexivity.
Qed.

Lemma arcs_from_alter_length {A : Type} (f : A -> A) (G : DiGraph A) u v s :
  List.length (arcs_from (alter f G u v) s) = List.length (arcs_from G s).
Proof.
  unfold arcs_from. induction G as [|e G IH]; simpl; [reflexivity|].
  destruct (arc_is u v e); simpl.
  - destruct (fst (fst e) =? s)%string; reflexivity.
  - destruct (fst (fst e) =? s)%string; simpl; rewrite IH; reflexivity.
Qed.

Lemma arcs_from_add_edge_length {A : Type} (G : DiGraph A) u v a s :
  (List.length (arcs_from (add_edge G u v a) s)
   <= List.length (arcs_from G s) + (if (u =? s)%string then 1 else 0))%nat.
Proof.
  unfold add_edge. destruct (has_edge G u v).
  - rewrite arcs_from_alter_length. lia.
  - unfold arcs_from. rewrite filter_app, length_app. simpl.
    destruct (u =? s)%string; simpl; lia.
Qed.

Lemma airline_arcs_from_source flights :
  (List.length (arcs_from (airline_graph flights) "S")
   <= List.length flights)%nat.
Proof.
  unfold airline_graph.
  assert (forall s a b c, ((s ++ String a (String b c))%string =? "S")%string
                          = false) as Hlong.
  { intros s a b c. apply String.eqb_neq. intros H.
    apply (f_equal String.length) in H. rewrite length_append in H.
    simpl in H. lia. }
  assert (forall seconds firsts (G : DiGraph Z),
            (List.length
               (arcs_from
                  (fold_left
                     (fun G f1 => fold_left (add_compatible f1) seconds G)
                     firsts G) "S")
             <= List.length (arcs_from G "S"))%nat) as Houter.
  { intros seconds. induction firsts as [|f1 firsts IH]; intros G; simpl;
      [lia|].
    etransitivity; [apply IH|]. clear IH. revert G.
    induction seconds as [|f2 seconds IH2]; intros G; simpl; [lia|].
    etransitivity; [apply IH2|]. unfold add_compatible.
    destruct (Flight.eqb f1 f2); [lia|].
    destruct (_ <=? _); [|lia].
    etransitivity; [apply arcs_from_add_edge_length|].
    unfold "++"%string at 1. rewrite Hlong. lia. }
  etransitivity; [apply Houter|].
  assert (forall fl (G : DiGraph Z),
            (List.length (arcs_from (fold_left add_terminals fl G) "S")
             <= List.length (arcs_from G "S") + List.length fl)%nat) as Hterm.
  { induction fl as [|f fl IH]; intros G; simpl; [lia|].
    etransitivity; [apply IH|]. unfold add_terminals.
    pose proof (arcs_from_add_edge_length
                  (add_edge G "S" (Flight.id f ++ "_in")%string 1)
                  (Flight.id f ++ "_out")%string "T" 1 "S") as H1.
    pose proof (arcs_from_add_edge_length G "S" (Flight.id f ++ "_in")%string
                  1 "S") as H2.
    rewrite Hlong in H1. simpl in H2. lia. }
  apply (Hterm flights []).
Qed.

Lemma sumZ_nonneg (l : list Z) : Forall (fun x => 0 <= x) l -> 0 <= sumZ l.
Proof.
  induction 1 as [|x l Hx _ IH]; [unfold sumZ; simpl; lia|].
  rewrite sumZ_cons. lia.
Qed.

Lemma sumZ_le_length (l : list Z) :
  Forall (fun x => x <= 1) l -> sumZ l <= Z.of_nat (List.length l).
Proof.
  induction 1 as [|x l Hx _ IH]; [unfold sumZ; simpl; lia|].
  rewrite sumZ_cons. cbn [List.length]. lia.
Qed.


Lemma sumZ_zero (l : list Z) : Forall (fun y => y = 0) l -> sumZ l = 0.
Proof.
  induction 1 as [|y l Hy _ IH]; [reflexivity|]. rewrite sumZ_cons. lia.
Qed.

Section FeasibleFacts.
Variables (G : DiGraph Z) (s t : node) (f : flow_fn).
Hypothesis Hf : feasible G s t f.

Lemma feasible_terms (P : node * node * Z -> bool) :
  Forall (fun y => 0 <= y)
         (map (fun e => f (fst (fst e)) (snd (fst e))) (filter P G)).
Proof.
  apply Forall_map, Forall_forall. intros [[u v] c] Hin.
  apply filter_In in Hin. destruct Hin as [Hin _]. simpl.
  apply (proj1 Hf u v c Hin).
Qed.

Lemma entering_nonneg n : 0 <= entering G f n.
Proof. apply sumZ_nonneg, feasible_terms. Qed.

Lemma leaving_nonneg n : 0 <= leaving G f n.
Proof. apply sumZ_nonneg, feasible_terms. Qed.

End FeasibleFacts.

Lemma zero_flow_feasible (G : DiGraph Z) s t :
  (forall u v c, In (u, v, c) G -> 0 <= c) ->
  feasible G s t (fun _ _ => 0) /\ flow_value G s (fun _ _ => 0) = 0.
Proof.
  intros Hcap.
  assert (forall P : node * node * Z -> bool,
            sumZ (map (fun e : node * node * Z => 0) (filter P G)) = 0) as Hz.
  { intros P. apply sumZ_zero, Forall_map, Forall_forall. reflexivity. }
  split; [split|].
  - intros u v c Hin. specialize (Hcap u v c Hin). lia.
  - intros n _ _. unfold entering, leaving. rewrite !Hz. reflexivity.
  - unfold flow_value, entering, leaving. rewrite !Hz. reflexivity.
Qed.

Lemma airline_flow_bounds flights v :
  max_flow_value (airline_graph flights) "S" "T" v ->
  0 <= v <= Z.of_nat (List.length flights).
Proof.
  intros [(f & Hf & <-) Hmax]. split.
  - destruct (zero_flow_feasible (airline_graph flights) "S" "T") as [Hz Hv].
    + intros u w c Hin. destruct (airline_arc_In _ _ _ _ Hin) as [-> _]. lia.
    + specialize (Hmax _ Hz). rewrite Hv in Hmax. exact Hmax.
  - unfold flow_value.
    pose proof (entering_nonneg _ _ _ _ Hf "S") as Hin.
    assert (leaving (airline_graph flights) f "S"
            <= Z.of_nat (List.length (arcs_from (airline_graph flights) "S")))
      as Hout.
    { unfold leaving. fold (arcs_from (airline_graph flights) "S").
      rewrite <- (length_map (fun e : node * node * Z =>
                                f (fst (fst e)) (snd (fst e)))).
      apply sumZ_le_length, Forall_map, Forall_forall.
      intros [[u w] c] He. apply filter_In in He. destruct He as [He _].
      simpl. destruct (airline_arc_In _ _ _ _ He) as [-> _].
      apply (proj1 Hf u w 1 He). }
    pose proof (airline_arcs_from_source flights). lia.
Qed.

(** X13: whenever the max-flow routine returns the maximum flow value of the
    constructed graph, the number of crews that [solve_airline] returns is
    between 0 and the number of flights, and it is that number minus a
    matching count between 0 and the number of flights. *)
Theorem solve_airline_bounds
    (maximum_flow : DiGraph Z -> node -> node -> res Z)
    (flights : list Flight.t) (v : Z) :
  maximum_flow (airline_graph flights) "S" "T" = Ret v ->
  max_flow_value (airline_graph flights) "S" "T" v ->
  exists min_crews msg,
    solve_airline maximum_flow flights = Ret (min_crews, msg) /\
    min_crews = Z.of_nat (List.length flights) - v /\
    0 <= v <= Z.of_nat (List.length flights) /\
    0 <= min_crews <= Z.of_nat (List.length flights).
Proof.
  intros Hret Hmax. pose proof (airline_flow_bounds flights v Hmax) as Hv.
  unfold solve_airline. rewrite Hret. eexists _, _.
  split; [reflexivity|]. split; [reflexivity|]. split; [exact Hv|lia].
Qed.

Lemma solve_airline_bounds_witness :
  Reference.maximum_flow (airline_graph demo_flights) "S" "T" = Ret 1 /\
  max_flow_value (airline_graph demo_flights) "S" "T" 1 /\
  exists min_crews msg,
    solve_airline Reference.maximum_flow demo_flights = Ret (min_crews, msg) /\
    0 <= min_crews <= 3.
Proof.
  assert (Reference.maximum_flow (airline_graph demo_flights) "S" "T" = Ret 1)
    as H by (vm_compute; reflexivity).
  split; [exact H|]. split; [exact demo_max_flow|].
  destruct (solve_airline_bounds Reference.maximum_flow demo_flights 1 H
              demo_max_flow) as (k & msg & Hs & _ & _ & Hk).
  exists k, msg. split; [exact Hs|exact Hk].
Defined.








(** ** Baseball elimination *)

Lemma lookup_keys {V : Type} (d : list (string * V)) k :
  In k (map fst d) -> exists x, lookup d k = Some x.
Proof.
  induction d as [|[k' x] d IH]; simpl; [tauto|].
  intros [->|H].
  - rewrite String.eqb_refl. eauto.
  - destruct (k' =? k)%string; eauto.
Qed.

Lemma other_teams_In teams_data target_team t :
  In t (other_teams_of teams_data target_team) <->
  In t (map fst teams_data) /\ t <> target_team.
Proof.
  unfold other_teams_of. rewrite filter_In, negb_true_iff, String.eqb_neq.
  reflexivity.
Qed.

Lemma other_teams_lookup teams_data target_team t :
  In t (other_teams_of teams_data target_team) ->
  exists stats, lookup teams_data t = Some stats.
Proof. intros H. apply other_teams_In in H. apply lookup_keys, H. Qed.

Lemma team_arcs_spec teams_data max_wins : forall other_teams G,
  (forall t, In t other_teams -> exists s, lookup teams_data t = Some s) ->
  (exists before team after,
      other_teams = before ++ team :: after /\
      ahead teams_data max_wins team /\
      (forall t, In t before -> ~ ahead teams_data max_wins t) /\
      team_arcs teams_data max_wins other_teams G = Ret (inl team))
  \/
  ((forall t, In t other_teams -> ~ ahead teams_data max_wins t) /\
   exists G1,
     team_arcs teams_data max_wins other_teams G = Ret (inr G1) /\
     forall u v, has_edge G1 u v = true <->
                 has_edge G u v = true \/ (In u other_teams /\ v = "T")).
Proof.
  induction other_teams as [|team rest IH]; intros G Hk.
  - right. split; [intros t []|]. exists G. split; [reflexivity|].
    intros u v. simpl. tauto.
  - destruct (Hk team (or_introl eq_refl)) as [stats Hs].
    cbn [team_arcs]. rewrite Hs. cbv zeta.
    destruct (max_wins - Team.wins stats <? 0) eqn:E.
    + left. exists [], team, rest. apply Z.ltb_lt in E.
      split; [reflexivity|]. split; [exists stats; split; [exact Hs|lia]|].
      split; [intros t []|reflexivity].
    + apply Z.ltb_ge in E.
      assert (Hn : ~ ahead teams_data max_wins team).
      { intros (s' & Hs' & Hlt). rewrite Hs in Hs'. inversion Hs'; subst. lia. }
      destruct (IH (add_edge G team "T" (Fin (max_wins - Team.wins stats)))
                   (fun t Ht => Hk t (or_intror Ht)))
        as [(before & first & after & -> & Ha & Hb & Hr)
           |(Hall & G1 & Hr & Harcs)].
      * left. exists (team :: before), first, after.
        split; [reflexivity|]. split; [exact Ha|]. split; [|exact Hr].
        intros t [<-|Ht]; [exact Hn|exact (Hb t Ht)].
      * right. split; [intros t [<-|Ht]; [exact Hn|exact (Hall t Ht)]|].
        exists G1. split; [exact Hr|]. intros u v. rewrite Harcs.
        rewrite has_edge_add_edge_iff. simpl. split.
        -- intros [[H|H]|[H ->]]; [inversion H; subst| |]; tauto.
        -- intros [H|[[<-|H] ->]]; tauto.
Qed.

Lemma has_node_edge {A : Type} (G : DiGraph A) n :
  has_node G n = true <->
  exists m, has_edge G n m = true \/ has_edge G m n = true.
Proof.
  rewrite has_node_spec. split; intros [m H]; exists m;
    rewrite ?has_edge_keys in *; exact H.
Qed.

Lemma has_node_add_edge_l {A : Type} (G : DiGraph A) u v a :
  has_node (add_edge G u v a) u = true.
Proof.
  apply has_node_edge. exists v. left. apply has_edge_add_edge_iff. auto.
Qed.

Lemma has_node_add_edge_keep {A : Type} (G : DiGraph A) u v a n :
  has_node G n = true -> has_node (add_edge G u v a) n = true.
Proof.
  rewrite !has_node_edge. intros [m H]. exists m.
  rewrite !has_edge_add_edge_iff. tauto.
Qed.

Lemma scheduled_nonneg teams_data p : 0 <= scheduled teams_data p.
Proof. unfold scheduled. destruct (games_left _ _ _); lia. Qed.

Lemma games_added_trans G G1 G2 d1 d2 :
  0 <= d2 ->
  games_added G G1 d1 -> games_added G1 G2 d2 ->
  (has_node G1 "S" = true -> has_node G2 "S" = true) ->
  games_added G G2 (d1 + d2).
Proof.
  unfold games_added. intros H2 [[-> ->]|[H1 Hn1]] [[-> ->]|[H2' Hn2]] Hk;
    try (left; split; [lia|reflexivity]); right; split; try lia; auto.
Qed.

Lemma add_game_spec teams_data t1 t2 G total stats :
  lookup teams_data t1 = Some stats ->
  exists G',
    add_game teams_data t1 (Ret (G, total)) t2
    = Ret (G', total + scheduled teams_data (t1, t2)) /\
    games_added G G' (scheduled teams_data (t1, t2)) /\
    (has_node G "S" = true -> has_node G' "S" = true).
Proof.
  intros Hs. unfold add_game, scheduled, games_left. cbn [fst snd].
  rewrite Hs.
  set (g := match lookup (Team.remaining stats) t2 with
            | Some g => g | None => 0 end).
  destruct (g >? 0) eqn:E.
  - assert (0 < g) by (apply Z.gtb_lt; exact E).
    eexists. split; [rewrite Z.max_r by lia; reflexivity|]. split.
    + right. split; [lia|].
      do 2 apply has_node_add_edge_keep. apply has_node_add_edge_l.
    + intros H'. do 3 apply has_node_add_edge_keep. exact H'.
  - assert (g <= 0).
    { destruct (Z.gtb_spec g 0); [discriminate|assumption]. }
    exists G. split; [rewrite Z.max_l by lia; rewrite Z.add_0_r; reflexivity|].
    split; [left; split; [lia|reflexivity]|auto].
Qed.

Lemma sumZ_app l1 l2 : sumZ (l1 ++ l2) = sumZ l1 + sumZ l2.
Proof.
  induction l1 as [|x l1 IH]; [reflexivity|].
  cbn [app]. rewrite !sumZ_cons, IH. lia.
Qed.

Lemma scheduled_sum_nonneg teams_data l :
  0 <= sumZ (map (scheduled teams_data) l).
Proof.
  apply sumZ_nonneg, Forall_forall. intros x Hx.
  apply in_map_iff in Hx. destruct Hx as (p & <- & _).
  apply scheduled_nonneg.
Qed.

Lemma inner_loop_spec teams_data t1 stats :
  lookup teams_data t1 = Some stats ->
  forall rest G total,
  exists G',
    fold_left (add_game teams_data t1) rest (Ret (G, total))
    = Ret (G', total + sumZ (map (scheduled teams_data) (map (pair t1) rest)))
    /\ games_added G G' (sumZ (map (scheduled teams_data) (map (pair t1) rest)))
    /\ (has_node G "S" = true -> has_node G' "S" = true).
Proof.
  intros Hs. induction rest as [|t2 rest IH]; intros G total.
  - exists G. cbn [fold_left map]. change (sumZ []) with 0.
    rewrite Z.add_0_r. split; [reflexivity|].
    split; [left; split; reflexivity|auto].
  - destruct (add_game_spec teams_data t1 t2 G total stats Hs)
      as (G1 & E1 & A1 & K1).
    destruct (IH G1 (total + scheduled teams_data (t1, t2)))
      as (G2 & E2 & A2 & K2).
    exists G2. cbn [fold_left map]. rewrite E1, E2, sumZ_cons.
    split; [f_equal; f_equal; lia|]. split; [|auto].
    apply (games_added_trans G G1 G2); auto.
    apply scheduled_sum_nonneg.
Qed.

Lemma game_arcs_spec teams_data : forall other_teams G total,
  (forall t, In t other_teams -> exists s, lookup teams_data t = Some s) ->
  exists G',
    game_arcs teams_data other_teams (Ret (G, total))
    = Ret (G', total + sumZ (map (scheduled teams_data) (pairings other_teams)))
    /\ games_added G G'
         (sumZ (map (scheduled teams_data) (pairings other_teams)))
    /\ (has_node G "S" = true -> has_node G' "S" = true).
Proof.
  induction other_teams as [|t1 rest IH]; intros G total Hk.
  - exists G. cbn [game_arcs pairings map]. change (sumZ []) with 0.
    rewrite Z.add_0_r. split; [reflexivity|].
    split; [left; split; reflexivity|auto].
  - destruct (Hk t1 (or_introl eq_refl)) as [stats Hs].
    destruct (inner_loop_spec teams_data t1 stats Hs rest G total)
      as (G1 & E1 & A1 & K1).
    destruct (IH G1 (total + sumZ (map (scheduled teams_data)
                                       (map (pair t1) rest)))
                 (fun t Ht => Hk t (or_intror Ht)))
      as (G2 & E2 & A2 & K2).
    exists G2. cbn [game_arcs pairings]. rewrite E1, E2, map_app, sumZ_app.
    split; [f_equal; f_equal; lia|]. split; [|auto].
    apply (games_added_trans G G1 G2); auto.
    apply scheduled_sum_nonneg.
Qed.

(** The network of a target that no other team is ahead of. *)
Lemma baseball_network teams_data target_team target_stats :
  lookup teams_data target_team = Some target_stats ->
  (forall team, In team (other_teams_of teams_data target_team) ->
                ~ ahead teams_data (max_wins_of target_stats) team) ->
  exists G1 G,
    team_arcs teams_data (max_wins_of target_stats)
              (other_teams_of teams_data target_team) [] = Ret (inr G1) /\
    game_arcs teams_data (other_teams_of teams_data target_team) (Ret (G1, 0))
    = Ret (G, sumZ (map (scheduled teams_data)
                        (pairings (other_teams_of teams_data target_team)))) /\
    (~ In "S" (other_teams_of teams_data target_team) ->
     has_node G "S"
     = (0 <? sumZ (map (scheduled teams_data)
                       (pairings (other_teams_of teams_data target_team))))).
Proof.
  intros Ht Hno.
  set (others := other_teams_of teams_data target_team) in *.
  assert (Hk : forall t, In t others -> exists s, lookup teams_data t = Some s).
  { intros t H. exact (other_teams_lookup _ _ _ H). }
  destruct (team_arcs_spec teams_data (max_wins_of target_stats) others [] Hk)
    as [(before & team & after & E & Ha & _)|(_ & G1 & E1 & Harcs)].
  - exfalso. apply (Hno team); [rewrite E; apply in_elt|exact Ha].
  - destruct (game_arcs_spec teams_data others G1 0 Hk) as (G & E2 & A2 & _).
    exists G1, G. split; [exact E1|]. split; [exact E2|].
    intros HS. destruct A2 as [[-> ->]|[Hpos Hn]].
    + change (0 <? 0) with false.
      destruct (has_node G1 "S") eqn:En; [|reflexivity]. exfalso.
      apply has_node_edge in En. destruct En as [m [H|H]];
        apply Harcs in H; destruct H as [H|[H1 H2]];
        try discriminate; auto.
    + rewrite Hn. symmetry. apply Z.ltb_lt. exact Hpos.
Qed.

(** X15: [solve_baseball] answers without a flow computation in two cases,
    whatever the flow routine would do: a target that is not a key of
    [teams_data] gives [(False, "Team not found")], and when some other team
    has more wins than the target can still reach, the answer is [True] with
    the message naming the first such team in the order of the dict. *)
Theorem solve_baseball_early_exits
    (maximum_flow : DiGraph num -> node -> node -> res Z)
    teams_data target_team :
  (lookup teams_data target_team = None ->
   solve_baseball maximum_flow teams_data target_team
   = Ret (false, "Team not found")) /\
  (forall target_stats team,
     lookup teams_data target_team = Some target_stats ->
     In team (other_teams_of teams_data target_team) ->
     ahead teams_data (max_wins_of target_stats) team ->
     exists before first after,
       other_teams_of teams_data target_team = before ++ first :: after /\
       ahead teams_data (max_wins_of target_stats) first /\
       (forall t, In t before ->
                  ~ ahead teams_data (max_wins_of target_stats) t) /\
       solve_baseball maximum_flow teams_data target_team
       = Ret (true, ("Trivial Elimination: " ++ first
                     ++ " already has more wins.")%string)).
Proof.
  split.
  - intros H. unfold solve_baseball. rewrite H. reflexivity.
  - intros target_stats team Ht Hin Ha.
    destruct (team_arcs_spec teams_data (max_wins_of target_stats)
                (other_teams_of teams_data target_team) []
                (fun t H => other_teams_lookup _ _ _ H))
      as [(before & first & after & E & Hf & Hb & Hr)|(Hall & _)].
    + exists before, first, after. split; [exact E|]. split; [exact Hf|].
      split; [exact Hb|]. unfold solve_baseball. rewrite Ht. cbv zeta.
      rewrite Hr. reflexivity.
    + exfalso. exact (Hall team Hin Ha).
Qed.

Lemma solve_baseball_early_exits_witness :
  exists before first after,
    other_teams_of mlb_data "DET" = before ++ first :: after /\
    ahead mlb_data 56 first /\
    (forall t, In t before -> ~ ahead mlb_data 56 t) /\
    solve_baseball reference_maximum_flow mlb_data "DET"
    = Ret (true, ("Trivial Elimination: " ++ first
                  ++ " already has more wins.")%string).
Proof.
  apply (proj2 (solve_baseball_early_exits reference_maximum_flow
                  mlb_data "DET")
               (Team.mk 49 [("NYY", 3); ("BAL", 4); ("BOS", 0); ("TOR", 0)])
               "BOS").
  - reflexivity.
  - simpl. tauto.
  - exists (Team.mk 69 [("NYY", 8); ("BAL", 2); ("TOR", 0); ("DET", 0)]).
    split; [reflexivity|]. vm_compute. reflexivity.
Defined.

(** X16: when the target is a key of [teams_data] and no other team is ahead
    of what it can still reach, [solve_baseball] never fails with a
    [KeyError]: it asks for the maximum flow from ["S"] to ["T"] of the
    network its two loops build, and [total_games_capacity] is the sum, over
    the pairs of other teams taken once each with the earlier team first, of
    the games the earlier team's schedule gives against the later one when
    that number is positive.  The verdict is [flow_val < total], and an
    exception of the flow routine is passed on. *)
Theorem solve_baseball_verdict
    (maximum_flow : DiGraph num -> node -> node -> res Z)
    teams_data target_team target_stats :
  lookup teams_data target_team = Some target_stats ->
  (forall team, In team (other_teams_of teams_data target_team) ->
                ~ ahead teams_data (max_wins_of target_stats) team) ->
  exists G1 G,
    team_arcs teams_data (max_wins_of target_stats)
              (other_teams_of teams_data target_team) [] = Ret (inr G1) /\
    game_arcs teams_data (other_teams_of teams_data target_team) (Ret (G1, 0))
    = Ret (G, sumZ (map (scheduled teams_data)
                        (pairings (other_teams_of teams_data target_team)))) /\
    0 <= sumZ (map (scheduled teams_data)
                   (pairings (other_teams_of teams_data target_team))) /\
    solve_baseball maximum_flow teams_data target_team
    = match maximum_flow G "S" "T" with
      | Raise e => Raise e
      | Ret flow_val =>
          let total :=
            sumZ (map (scheduled teams_data)
                      (pairings (other_teams_of teams_data target_team))) in
          Ret (flow_val <? total,
               ("Flow: " ++ str flow_val ++ "/" ++ str total
                ++ ". Max Wins Possible: "
                ++ str (max_wins_of target_stats))%string)
      end.
Proof.
  intros Ht Hno.
  destruct (baseball_network teams_data target_team target_stats Ht Hno)
    as (G1 & G & E1 & E2 & _).
  exists G1, G. split; [exact E1|]. split; [exact E2|].
  split; [apply scheduled_sum_nonneg|].
  unfold solve_baseball. rewrite Ht. cbv zeta. rewrite E1, E2. reflexivity.
Qed.

Lemma nobody_ahead_of_NYY team :
  In team (other_teams_of mlb_data "NYY") ->
  ~ ahead mlb_data 96 team.
Proof.
  intros Hin (stats & Hs & Hlt). simpl in Hin.
  destruct Hin as [<-|[<-|[<-|[<-|[]]]]]; vm_compute in Hs;
    inversion Hs; subst; simpl in Hlt; lia.
Qed.

Lemma solve_baseball_verdict_witness :
  exists G1 G,
    team_arcs mlb_data 96 (other_teams_of mlb_data "NYY") [] = Ret (inr G1) /\
    game_arcs mlb_data (other_teams_of mlb_data "NYY") (Ret (G1, 0))
    = Ret (G, sumZ (map (scheduled mlb_data)
                        (pairings (other_teams_of mlb_data "NYY")))) /\
    0 <= sumZ (map (scheduled mlb_data)
                   (pairings (other_teams_of mlb_data "NYY"))) /\
    solve_baseball reference_maximum_flow mlb_data "NYY"
    = match reference_maximum_flow G "S" "T" with
      | Raise e => Raise e
      | Ret flow_val =>
          let total :=
            sumZ (map (scheduled mlb_data)
                      (pairings (other_teams_of mlb_data "NYY"))) in
          Ret (flow_val <? total,
               ("Flow: " ++ str flow_val ++ "/" ++ str total
                ++ ". Max Wins Possible: " ++ str 96)%string)
      end.
Proof.
  exact (solve_baseball_verdict reference_maximum_flow mlb_data "NYY"
           (Team.mk 75 [("BAL", 3); ("BOS", 8); ("TOR", 7); ("DET", 3)])
           eq_refl nobody_ahead_of_NYY).
Defined.

(** X17: when the target is a key of [teams_data], no other team is ahead of
    what it can still reach, no other team is called ["S"] and no pair of
    other teams has a game left that counts (as in a league of two, or at the
    end of a season), the network has no arc at ["S"]; a flow routine that
    refuses a source outside the graph, as networkx does, then makes
    [solve_baseball] raise [NetworkXError] instead of answering. *)
Theorem solve_baseball_without_games
    (maximum_flow : DiGraph num -> node -> node -> res Z)
    teams_data target_team target_stats :
  source_checked maximum_flow ->
  lookup teams_data target_team = Some target_stats ->
  (forall team, In team (other_teams_of teams_data target_team) ->
                ~ ahead teams_data (max_wins_of target_stats) team) ->
  ~ In "S" (other_teams_of teams_data target_team) ->
  (forall p, In p (pairings (other_teams_of teams_data target_team)) ->
             scheduled teams_data p = 0) ->
  solve_baseball maximum_flow teams_data target_team = Raise NetworkXError.
Proof.
  intros Hmf Ht Hno HS Hzero.
  destruct (baseball_network teams_data target_team target_stats Ht Hno)
    as (G1 & G & E1 & E2 & Hn).
  specialize (Hn HS).
  assert (Hsum : sumZ (map (scheduled teams_data)
                   (pairings (other_teams_of teams_data target_team))) = 0).
  { apply sumZ_zero, Forall_forall. intros y Hy.
    apply in_map_iff in Hy. destruct Hy as (p & <- & Hp). exact (Hzero p Hp). }
  rewrite Hsum in Hn. change (0 <? 0) with false in Hn.
  unfold solve_baseball. rewrite Ht. cbv zeta. rewrite E1, E2.
  rewrite (Hmf G "S" "T" Hn). reflexivity.
Qed.

Lemma has_node_map {A B : Type} (g : node * node * A -> node * node * B)
    (G : DiGraph A) n :
  (forall e, fst (g e) = fst e) ->
  has_node (map g G) n = has_node G n.
Proof.
  intros Hg. unfold has_node. induction G as [|e G IH]; [reflexivity|].
  cbn [map existsb]. rewrite IH, Hg. reflexivity.
Qed.

Lemma reference_source_checked : source_checked reference_maximum_flow.
Proof.
  intros G s t H. unfold reference_maximum_flow, Reference.maximum_flow.
  cbv zeta. rewrite has_node_map by reflexivity. rewrite H. reflexivity.
Qed.

Lemma solve_baseball_without_games_witness :
  solve_baseball reference_maximum_flow two_team_league "A"
  = Raise NetworkXError.
Proof.
  apply (solve_baseball_without_games reference_maximum_flow two_team_league
           "A" (Team.mk 3 [("B", 2)]) reference_source_checked eq_refl).
  - intros team Hin (stats & Hs & Hlt). simpl in Hin.
    destruct Hin as [<-|[]]. vm_compute in Hs. inversion Hs; subst.
    vm_compute in Hlt. discriminate.
  - simpl. intros [H|[]]. discriminate.
  - simpl. tauto.
Defined.

(** X18: the crew-pairing graph has the terminals ["S"] and ["T"] as nodes
    exactly when there is at least one flight; on an empty list of flights
    the graph is empty, and a flow routine that refuses a source outside the
    graph makes [solve_airline] raise [NetworkXError]. *)
Theorem solve_airline_terminals flights :
  (has_node (airline_graph flights) "S" = true <-> flights <> []) /\
  (has_node (airline_graph flights) "T" = true <-> flights <> []) /\
  (forall maximum_flow : DiGraph Z -> node -> node -> res Z,
     source_checked maximum_flow ->
     flights = [] ->
     solve_airline maximum_flow flights = Raise NetworkXError).
Proof.
  split; [|split].
  - split.
    + intros H ->. discriminate.
    + destruct flights as [|f l]; [congruence|]. intros _.
      apply has_node_edge. exists (Flight.id f ++ "_in")%string. left.
      apply airline_arcs. left. exists f. split; [left; reflexivity|].
      left. reflexivity.
  - split.
    + intros H ->. discriminate.
    + destruct flights as [|f l]; [congruence|]. intros _.
      apply has_node_edge. exists (Flight.id f ++ "_out")%string. right.
      apply airline_arcs. left. exists f. split; [left; reflexivity|].
      right. reflexivity.
  - intros mf Hmf ->. unfold solve_airline.
    rewrite (Hmf (airline_graph []) "S" "T" eq_refl). reflexivity.
Qed.
